(** * The chat agent's orchestration core

    A shallow embedding of [agent/agent_builder.py] (the step graph built by
    [create_chat_agent]) and of the [/stream_chat] entry point of [main.py],
    with the properties of the orchestration core proved over it.

    Python values are modelled as follows: [str] as [string] (a sequence of
    UTF-8 bytes; the delimiter ['-'] is a single byte that never occurs inside
    a multi-byte character, so splitting on it is the same on bytes and on
    code points), [int] as [Z], [dict] keyed by tool name as [gmap string],
    a raised exception as the [Raise] branch of [result]. *)

From Stdlib Require Import ZArith Lia Ascii.
From stdpp Require Import base option strings list gmap pretty.

Open Scope string_scope.
Open Scope Z_scope.
Open Scope list_scope.

(** ** Exceptions and results *)

Inductive exn : Type :=
| IndexError                         (* list index out of range *)
| AttributeError                     (* missing attribute *)
| KeyError (key : string)            (* missing dict key *)
| ValueError (msg : string)          (* raised by the message reducer *)
| ToolException (msg : string)       (* raised inside a tool's ainvoke *)
| ModelError (msg : string).         (* raised by a chat model's ainvoke *)

Inductive result (A : Type) : Type :=
| Ok (a : A)
| Raise (e : exn).
Arguments Ok {A} a.
Arguments Raise {A} e.

Definition bind {A B} (r : result A) (k : A → result B) : result B :=
  match r with
  | Ok a => k a
  | Raise e => Raise e
  end.

Notation "'let*' x := r 'in' k" := (bind r (fun x => k))
  (at level 10, x name, r at level 100, k at level 200).

(** What an external collaborator (a chat model, a tool) answers: a value, or
    a failure that the caller sees as an exception. *)
Inductive outcome (A : Type) : Type :=
| Returned (a : A)
| Failed (why : string).
Arguments Returned {A} a.
Arguments Failed {A} why.

(** ** Messages *)

(** A JSON value of a tool call's arguments. *)
Inductive json : Type :=
| JInt (z : Z)
| JStr (s : string).

Record ToolCall : Type := mkToolCall {
  tc_name : string;
  tc_args : list (string * json);
  tc_id : string
}.

(** The message classes the graph handles, without their [id]. Only
    [AIMessage] has the attribute [tool_calls]; only [ToolMessage] has
    [tool_call_id]. *)
Inductive Message : Type :=
| HumanMessage (content : string)
| AIMessage (content : string) (tool_calls : list ToolCall)
| ToolMessage (content : string) (tool_call_id : string)
| SystemMessage (content : string).

(** [m.type] *)
Definition msg_type (m : Message) : string :=
  match m with
  | HumanMessage _ => "human"
  | AIMessage _ _ => "ai"
  | ToolMessage _ _ => "tool"
  | SystemMessage _ => "system"
  end.

(** [m.content] *)
Definition msg_content (m : Message) : string :=
  match m with
  | HumanMessage c | AIMessage c _ | ToolMessage c _ | SystemMessage c => c
  end.

(** [m.tool_call_id], an attribute of tool messages. *)
Definition msg_tool_call_id (m : Message) : option string :=
  match m with
  | ToolMessage _ call_id => Some call_id
  | _ => None
  end.

(** [m.tool_calls]; [None] when the attribute does not exist
    ([hasattr(m, "tool_calls")] is false). *)
Definition msg_tool_calls (m : Message) : option (list ToolCall) :=
  match m with
  | AIMessage _ calls => Some calls
  | _ => None
  end.

(** A message of the [messages] channel: the reducer gives every message it
    stores an [id], so a stored message always has one. *)
Record Stored : Type := mkStored {
  msg_id : string;
  msg : Message
}.

(** An element of a node's [messages] output: a message to add (its [id]
    may still be [None]) or a [RemoveMessage(id=...)]. *)
Inductive Entry : Type :=
| Add (id : option string) (m : Message)
| RemoveMessage (id : string).

Definition ids (l : list Stored) : list string := msg_id <$> l.

(** Python truthiness of a [str]: [not s] holds of the empty string. *)
Definition truthy (s : string) : bool :=
  match s with
  | EmptyString => false
  | String _ _ => true
  end.

(** ** Thread identifiers *)

(** [s.split(sep)] for a one-character separator. The result is never empty:
    ["".split("-") = [""]]. *)
Fixpoint split (sep : ascii) (s : string) : list string :=
  match s with
  | EmptyString => [EmptyString]
  | String c rest =>
      if bool_decide (c = sep) then EmptyString :: split sep rest
      else match split sep rest with
           | [] => [String c EmptyString]
           | w :: ws => String c w :: ws
           end
  end.

(** [sep in s] *)
Fixpoint contains (sep : ascii) (s : string) : bool :=
  match s with
  | EmptyString => false
  | String c rest => bool_decide (c = sep) || contains sep rest
  end.

Definition delimiter : ascii := "-"%char.

(** [f"{user_id}-{sess_id}"] ([main.py], lines 54 and 151). *)
Definition thread_id_of (user_id sess_id : string) : string :=
  user_id +:+ String delimiter sess_id.

(** ** Conversation state *)

(** [AgentState]. A key of the TypedDict that was never written is [None]. *)
Record AgentState : Type := mkAgentState {
  messages : list Stored;
  current_user_id : option string;
  current_user_name : option string;
  current_session_id : option string;
  current_summary : option string
}.

(** The dict a node returns: the keys it sets. *)
Record Update : Type := mkUpdate {
  upd_messages : option (list Entry);
  upd_user_id : option string;
  upd_user_name : option string;
  upd_session_id : option string;
  upd_summary : option string
}.

(** The state of a thread nothing was written to. *)
Definition empty_state : AgentState := mkAgentState [] None None None None.

(** [dict()] *)
Definition no_update : Update := mkUpdate None None None None None.

(** [user_info[i]] *)
Definition index {A} (l : list A) (i : nat) : result A :=
  match l !! i with
  | Some a => Ok a
  | None => Raise IndexError
  end.

(** [runtime_load_node] (lines 36-45); [thread_id] is
    [config["configurable"]["thread_id"]]. *)
Definition runtime_load_node (thread_id : string) (state : AgentState)
  : result Update :=
  let user_info := split delimiter thread_id in
  let* u0 := index user_info 0 in
  let* u1 := index user_info 1 in
  Ok (mkUpdate None (Some u0) (Some ("用户" +:+ u0)) (Some u1) (Some "")).

(** ** The [/stream_chat] entry point *)

Inductive Response : Type :=
| JSONResponse (code : Z) (error : string)
| EventSourceResponse (thread_id : string) (input : Update).

(** [not request.headers.get(name)]: the header is missing or empty. *)
Definition header_missing (h : option string) : bool :=
  match h with
  | None => true
  | Some v => negb (truthy v)
  end.

(** [{"messages": [HumanMessage(content=message)]}] *)
Definition human_input (message : string) : Update :=
  mkUpdate (Some [Add None (HumanMessage message)]) None None None None.

(** [chat] ([main.py], lines 38-62). The answer [EventSourceResponse] holds
    what [event_stream] hands to [agent.astream_events]: the thread
    identifier of the config and the input [{"messages": [HumanMessage]}]. *)
Definition chat (x_user x_sess : option string) (message : string)
  : Response :=
  if header_missing x_user || header_missing x_sess
  then JSONResponse (-1) "invalid user"
  else if negb (truthy message)
  then JSONResponse (-1) "invalid message"
  else EventSourceResponse
         (thread_id_of (default "" x_user) (default "" x_sess))
         (human_input message).

(** The constraint of the spec on [run_turn]'s thread identifier: it parses
    into exactly two non-empty components. *)
Definition parses_to_two_components (thread_id : string) : bool :=
  match split delimiter thread_id with
  | [a; b] => truthy a && truthy b
  | _ => false
  end.

(** ** The session endpoints *)

(** A document of the [sessions] collection, without its [_id]. *)
Record Session : Type := mkSession {
  sess_user_id : string;
  sess_session_id : string;
  sess_name : string
}.

(** What an endpoint answers: [{"code": -1, "error": ...}] or
    [{"code": 0, "data": ...}]. *)
Inductive Answer (A : Type) : Type :=
| AnswerError (code : Z) (error : string)
| AnswerData (code : Z) (data : A).
Arguments AnswerError {A} code error.
Arguments AnswerData {A} code data.

(** The collection is MongoDB's; it is taken as the list of its documents
    in insertion order. The filter [{"user_id": ..., "session_id": ...}]: *)
Definition same_key (user sess : string) (d : Session) : bool :=
  bool_decide (sess_user_id d = user) && bool_decide (sess_session_id d = sess).

(** [insert_one(doc)] *)
Definition insert_one (doc : Session) (coll : list Session) : list Session :=
  coll ++ [doc].

(** [update_one(filter, {"$set": {"name": name}})]: the first document
    that matches gets the name; nothing is inserted when none matches. *)
Fixpoint update_one (user sess name : string) (coll : list Session)
  : list Session :=
  match coll with
  | [] => []
  | d :: rest =>
      if same_key user sess d
      then mkSession (sess_user_id d) (sess_session_id d) name :: rest
      else d :: update_one user sess name rest
  end.

(** [delete_one(filter)]: the first document that matches goes. *)
Fixpoint delete_one (user sess : string) (coll : list Session)
  : list Session :=
  match coll with
  | [] => []
  | d :: rest =>
      if same_key user sess d then rest
      else d :: delete_one user sess rest
  end.

(** [find({"user_id": user_id}, projection={"_id": False})] *)
Definition find_user (user : string) (coll : list Session) : list Session :=
  filter (λ d, sess_user_id d = user) coll.

Definition default_name : string := "新会话".

(** [create_session] ([main.py], lines 64-79); [new_id] is the value of
    [str(uuid4())]. *)
Definition create_session (x_user : option string) (new_id : string)
    (coll : list Session) : list Session * Answer Session :=
  if header_missing x_user then (coll, AnswerError (-1) "invalid user")
  else
    let doc := mkSession (default "" x_user) new_id default_name in
    (insert_one doc coll, AnswerData 0 doc).

(** [update_session] ([main.py], lines 81-96); the data of the answer is
    the name that was set. *)
Definition update_session (x_user x_sess : option string) (name : string)
    (coll : list Session) : list Session * Answer string :=
  if header_missing x_user || header_missing x_sess
  then (coll, AnswerError (-1) "invalid user")
  else
    let name := if negb (truthy name) then default_name else name in
    (update_one (default "" x_user) (default "" x_sess) name coll,
     AnswerData 0 name).

(** [delete_session] ([main.py], lines 117-126); the data of the answer is
    the session id. *)
Definition delete_session (x_user x_sess : option string)
    (coll : list Session) : list Session * Answer string :=
  if header_missing x_user || header_missing x_sess
  then (coll, AnswerError (-1) "invalid user")
  else
    (delete_one (default "" x_user) (default "" x_sess) coll,
     AnswerData 0 (default "" x_sess)).

(** [list_session] ([main.py], lines 128-138). *)
Definition list_session (x_user : option string) (coll : list Session)
  : Answer (list Session) :=
  if header_missing x_user then AnswerError (-1) "invalid user"
  else AnswerData 0 (find_user (default "" x_user) coll).

(** The documents of a collection have distinct (user, session) keys. *)
Definition distinct_keys (coll : list Session) : Prop :=
  NoDup ((λ d, (sess_user_id d, sess_session_id d)) <$> coll).

(** ** Collaborators' answers *)

(** The [AIMessage] a chat model's [ainvoke] returns. *)
Record AIReply : Type := mkAIReply {
  reply_id : option string;
  reply_content : string;
  reply_tool_calls : list ToolCall
}.

(** A prompt: the messages handed to a chat model, with their ids. *)
Definition Prompt : Type := list (option string * Message).

Definition prompt_of (l : list Stored) : Prompt :=
  (λ m, (Some (msg_id m), msg m)) <$> l.

(** ** The registry's tool names *)

(** Keys of [tool_map] in [agent/tool/time_toolkit.py] (lines 149-160). *)
Definition time_tool_names : list string :=
  ["now_utc"; "now_local"; "parse_datetime"; "add_seconds"; "add_minutes";
   "add_hours"; "add_days"; "diff_seconds"; "diff_minutes"; "diff_hours"].

(** Keys of [tool_map] in [agent/tool/math_tookit.py] (lines 129-140). *)
Definition math_tool_names : list string :=
  ["add"; "subtract"; "multiply"; "divide"; "power"; "sqrt"; "abs_val";
   "max_val"; "min_val"; "average"].

(** ** Stand-ins for the collaborators, used in the examples *)

Module Stub.

(** A deterministic [uuid4]: an identifier longer than all those in use. *)
Definition longest (used : list string) : string :=
  foldr (λ s acc, if bool_decide (String.length acc < String.length s)%nat
                  then s else acc) "" used.

Definition uuid4 (used : list string) : string :=
  String "u"%char (longest used).

(** OpenAI role of a message, as the token counter names it. *)
Definition role (m : Message) : string :=
  match m with
  | HumanMessage _ => "user"
  | AIMessage _ _ => "assistant"
  | ToolMessage _ _ => "tool"
  | SystemMessage _ => "system"
  end.

Fixpoint len (s : string) (acc : Z) : Z :=
  match s with
  | EmptyString => acc
  | String _ rest => len rest (acc + 1)
  end.

(** Characters counted for one message: content, role, the tool-call id
    of a tool message, and (in place of the repr of the tool calls) the
    names and ids of an assistant message's tool calls. *)
Definition message_chars (m : Message) : Z :=
  len (msg_content m) 0 + len (role m) 0 +
  match m with
  | ToolMessage _ call_id => len call_id 0
  | AIMessage _ calls =>
      foldr (λ c acc, len (tc_name c) 0 + len (tc_id c) 0 + acc) 0 calls
  | _ => 0
  end.

(** [count_tokens_approximately] with its defaults: four characters per
    token, rounded up, and three extra tokens per message. *)
Definition count_tokens_approximately (l : list Stored) : Z :=
  foldr (λ m acc, (message_chars (msg m) + 3) / 4 + 3 + acc) 0 l.

Definition SystemPrompt : Message := SystemMessage "You are an assistant.".

(** A summarization model that answers with a fixed summary. *)
Definition qwen3_8b (p : Prompt) : outcome AIReply :=
  Returned (mkAIReply None "summary of the conversation" []).

(** A summarization model that answers with empty content. *)
Definition qwen3_8b_silent (p : Prompt) : outcome AIReply :=
  Returned (mkAIReply None "" []).

(** A model that requests one tool call and, once the prompt ends with a
    tool result, answers with the result's content. *)
Definition asks (call : ToolCall) (p : Prompt) : outcome AIReply :=
  match last p with
  | Some (_, ToolMessage observation _) =>
      Returned (mkAIReply None observation [])
  | _ => Returned (mkAIReply None "" [call])
  end.

(** The model of the spec's end-to-end scenario: it asks for
    [multiply(a=12, b=7)]. *)
Definition qwen3_8b_with_tools : Prompt → outcome AIReply :=
  asks (mkToolCall "multiply" [("a", JInt 12); ("b", JInt 7)] "call_1").

(** The tools on integers. [divide] raises on a zero divisor
    ([math_tookit.py], lines 54-55); the other tools are not modelled and
    answer with an empty observation. *)
Definition tool_ainvoke (name : string) (args : list (string * json))
  : outcome string :=
  match args with
  | [(_, JInt a); (_, JInt b)] =>
      if bool_decide (name = "multiply") then Returned (pretty (a * b))
      else if bool_decide (name = "add") then Returned (pretty (a + b))
      else if bool_decide (name = "subtract") then Returned (pretty (a - b))
      else if bool_decide (name = "divide") then
        if bool_decide (b = 0)
        then Failed "Division by zero is not allowed."
        else Returned ""
      else Returned ""
  | _ => Returned ""
  end.

(** A long text: [2^n] copies of ["a"]. *)
Fixpoint text (n : nat) (s : string) : string :=
  match n with
  | O => s
  | S k => text k (s +:+ s)
  end.

(** A state of thread "u1-s1" holding one short user message. *)
Definition short_state : AgentState :=
  mkAgentState [mkStored "m1" (HumanMessage "hi")]
               (Some "u1") (Some "用户u1") (Some "s1") (Some "").

(** A history over the budget: one message of 524,288 characters between
    two short ones. *)
Definition long_state : AgentState :=
  mkAgentState [mkStored "m1" (HumanMessage "hi");
                mkStored "m2" (AIMessage (text 19 "a") []);
                mkStored "m3" (HumanMessage "go on")]
               (Some "u1") (Some "用户u1") (Some "s1") (Some "").

(** A first message of 524,288 characters, alone in its thread. *)
Definition huge_state : AgentState :=
  mkAgentState [mkStored "m1" (HumanMessage (text 19 "a"))]
               (Some "u1") (Some "用户u1") (Some "s1") (Some "").

(** A state whose last message requests one tool call. *)
Definition asking_state (call : ToolCall) : AgentState :=
  mkAgentState [mkStored "m1" (HumanMessage "hi");
                mkStored "m2" (AIMessage "" [call])]
               (Some "u1") (Some "用户u1") (Some "s1") (Some "").

Definition multiply_call : ToolCall :=
  mkToolCall "multiply" [("a", JInt 12); ("b", JInt 7)] "call_1".

Definition weather_call : ToolCall := mkToolCall "weather" [] "call_1".

Definition divide_call : ToolCall :=
  mkToolCall "divide" [("a", JInt 1); ("b", JInt 0)] "call_1".

Definition now_utc_call : ToolCall := mkToolCall "now_utc" [] "call_1".

(** The tools at a reading of the clock: [now_utc] and [now_local] answer
    with the time of the call ([time_toolkit.py], lines 15-32). *)
Definition tool_ainvoke_at (now : string) (name : string)
    (args : list (string * json)) : outcome string :=
  if bool_decide (name = "now_utc") || bool_decide (name = "now_local")
  then Returned now
  else tool_ainvoke name args.

(** Another run of the id generator: other ids, new all the same. *)
Definition uuid4_other (used : list string) : string :=
  String "v"%char (longest used).

(** A summarization model that answers with the instruction it was sent,
    the content of the last message of its prompt. *)
Definition qwen3_8b_echo (p : Prompt) : outcome AIReply :=
  match last p with
  | Some (_, m) => Returned (mkAIReply None (msg_content m) [])
  | None => Returned (mkAIReply None "" [])
  end.

(** The long history again, of a thread that has a summary of an earlier
    turn and no identity loaded yet. *)
Definition long_state_with_summary : AgentState :=
  mkAgentState (messages long_state) None None None (Some "old summary").

(** Sessions with a repeated key: two of user "u1" under the id "s1". *)
Definition repeated_sessions : list Session :=
  [mkSession "u2" "s2" "other"; mkSession "u1" "s1" "first";
   mkSession "u1" "s1" "second"].

End Stub.

(** The graph with the stand-ins as collaborators. *)
Notation "'stub' f" :=
  (f Stub.uuid4 Stub.count_tokens_approximately Stub.SystemPrompt
     Stub.qwen3_8b Stub.qwen3_8b_with_tools Stub.tool_ainvoke)
  (at level 10, f at level 9, only parsing).

(** ** The graph *)

Section Graph.

(** The collaborators of [create_chat_agent]: the id generator of the
    reducer ([uuid4], given the ids in use), the token counter, the system
    prompt of [agent/prompt.py], the two chat models of [agent/model.py]
    (a fixed deterministic function each), and what the tool registered
    under a name does when invoked. *)
Context (uuid4 : list string → string).
Context (count_tokens_approximately : list Stored → Z).
Context (SystemPrompt : Message).
Context (qwen3_8b : Prompt → outcome AIReply).
Context (qwen3_8b_with_tools : Prompt → outcome AIReply).
Context (tool_ainvoke : string → list (string * json) → outcome string).

(** *** The reducer of the [messages] channel *)

(** A message of the right-hand side once every message has an id. *)
Inductive Identified : Type :=
| Put (m : Stored)
| Del (id : string).

(** First pass of the reducer: a message without id gets a new one. *)
Fixpoint assign_ids (used : list string) (right : list Entry)
  : list Identified :=
  match right with
  | [] => []
  | Add (Some i) m :: rest => Put (mkStored i m) :: assign_ids (i :: used) rest
  | Add None m :: rest =>
      let i := uuid4 used in
      Put (mkStored i m) :: assign_ids (i :: used) rest
  | RemoveMessage i :: rest => Del i :: assign_ids (i :: used) rest
  end.

(** The variables of the reducer's merge loop. *)
Record Merge : Type := mkMerge {
  merged : list Stored;
  merged_by_id : gmap string nat;
  ids_to_remove : gset string
}.

(** [{m.id: i for i, m in enumerate(merged)}] *)
Definition index_by_id (l : list Stored) : gmap string nat :=
  foldl (λ acc p, <[msg_id p.2 := p.1]> acc) ∅ (imap pair l).

Definition merge_start (left : list Stored) : Merge :=
  mkMerge left (index_by_id left) ∅.

(** One iteration of the merge loop. *)
Definition merge_step (st : Merge) (e : Identified) : result Merge :=
  match e with
  | Del i =>
      match merged_by_id st !! i with
      | Some _ =>
          Ok (mkMerge (merged st) (merged_by_id st)
                      ({[i]} ∪ ids_to_remove st))
      | None =>
          Raise (ValueError
            "Attempting to delete a message with an ID that doesn't exist")
      end
  | Put m =>
      match merged_by_id st !! msg_id m with
      | Some k =>
          Ok (mkMerge (<[k:=m]> (merged st)) (merged_by_id st)
                      (ids_to_remove st ∖ {[msg_id m]}))
      | None =>
          Ok (mkMerge (merged st ++ [m])
                      (<[msg_id m := length (merged st)]> (merged_by_id st))
                      (ids_to_remove st))
      end
  end.

Fixpoint merge_all (st : Merge) (es : list Identified) : result Merge :=
  match es with
  | [] => Ok st
  | e :: rest => let* st' := merge_step st e in merge_all st' rest
  end.

(** Modelled from the spec: [add_messages], the reducer that the
    annotation of [AgentState.messages] (line 20) names, is LangGraph's and
    not part of the repository. The spec's merge rule is: removals applied
    by identity, then appends in the step's emission order. This is that
    rule as the reducer's loop realises it: a [RemoveMessage] marks its id,
    which must be present, a new message is appended, the marked ids are
    dropped at the end; and a message whose id is already present replaces
    the stored one in place. The nodes emit removals of stored messages
    only, or new messages only. *)
Definition add_messages (left : list Stored) (right : list Entry)
  : result (list Stored) :=
  let* st := merge_all (merge_start left) (assign_ids (ids left) right) in
  Ok (filter (λ m, msg_id m ∉ ids_to_remove st) (merged st)).

(** A scalar channel keeps its value unless the update writes it. *)
Definition overwrite (new old : option string) : option string :=
  match new with
  | Some v => Some v
  | None => old
  end.

(** Merge of a node's output into the state. *)
Definition apply_update (s : AgentState) (u : Update) : result AgentState :=
  let* ms := match upd_messages u with
             | Some entries => add_messages (messages s) entries
             | None => Ok (messages s)
             end in
  Ok (mkAgentState ms
        (overwrite (upd_user_id u) (current_user_id s))
        (overwrite (upd_user_name u) (current_user_name s))
        (overwrite (upd_session_id u) (current_session_id s))
        (overwrite (upd_summary u) (current_summary s))).

(** *** The nodes *)

(** A non-empty list is truthy. *)
Definition nonempty {A} (l : list A) : bool :=
  match l with
  | [] => false
  | _ :: _ => true
  end.

(** The condition of [delete_tool_message_node] (line 50). *)
Definition is_tool_artifact (m : Message) : bool :=
  bool_decide (msg_type m = "tool")
  || match msg_tool_calls m with
     | Some calls => nonempty calls
     | None => false
     end.

(** [delete_tool_message_node] (lines 47-53). *)
Definition delete_tool_message_node (state : AgentState) : result Update :=
  let delete_messages :=
    (λ m, RemoveMessage (msg_id m))
    <$> filter (λ m, is_tool_artifact (msg m) = true) (messages state) in
  Ok (mkUpdate (Some delete_messages) None None None None).

Definition newline : string := String "010"%char "".

Definition create_instruction : string :=
  "Create a summary of the conversation above:".

Definition extend_instruction (summary : string) : string :=
  "This is a summary of the conversation to date: " +:+ summary
  +:+ newline +:+ newline
  +:+ "Extend the summary by taking into account the new messages above:".

(** [summary_message] of [summarize_conversation_node] (lines 62-74). *)
Definition summary_message (state : AgentState) : string :=
  let summary := default "" (current_summary state) in
  if truthy summary then extend_instruction summary
  else create_instruction.

(** [l[:-2]] *)
Definition all_but_last_two {A} (l : list A) : list A :=
  take (length l - 2)%nat l.

(** [l[-2:]] *)
Definition last_two {A} (l : list A) : list A :=
  drop (length l - 2)%nat l.

(** [summarize_conversation_node] (lines 55-82). *)
Definition summarize_conversation_node (state : AgentState)
  : result Update :=
  let tokens := count_tokens_approximately (messages state) in
  if bool_decide (tokens < 128 * 1000) then Ok no_update
  else
    let prompt :=
      prompt_of (messages state)
      ++ [(None, HumanMessage (summary_message state))] in
    match qwen3_8b prompt with
    | Failed why => Raise (ModelError why)
    | Returned response =>
        let delete_messages :=
          (λ m, RemoveMessage (msg_id m))
          <$> all_but_last_two (messages state) in
        Ok (mkUpdate (Some delete_messages) None None None
                     (Some (reply_content response)))
    end.

Definition summary_note (current_summary : string) : string :=
  "因对话超过模型上下文，因此做了一次摘要总结，"
  +:+ "以下是对话历史的摘要，请作为已知事实使用，而不是逐字复述: "
  +:+ current_summary.

(** The prompt of [llm_call_node] (lines 85-94). *)
Definition llm_prompt (state : AgentState) : Prompt :=
  let current_summary := default "" (current_summary state) in
  let basic_messages :=
    (None, SystemPrompt)
    :: (if truthy current_summary
        then [(None, SystemMessage (summary_note current_summary))]
        else []) in
  basic_messages ++ prompt_of (messages state).

(** [llm_call_node] (lines 84-95). *)
Definition llm_call_node (state : AgentState) : result Update :=
  match qwen3_8b_with_tools (llm_prompt state) with
  | Failed why => Raise (ModelError why)
  | Returned r =>
      Ok (mkUpdate
            (Some [Add (reply_id r)
                       (AIMessage (reply_content r) (reply_tool_calls r))])
            None None None None)
  end.

(** [{**time_tool_map, **math_tool_map}] (line 34): the names of both
    toolkits, each bound to its tool. *)
Definition toolkit (names : list string)
  : gmap string (list (string * json) → outcome string) :=
  list_to_map ((λ name, (name, tool_ainvoke name)) <$> names).

Definition tool_map : gmap string (list (string * json) → outcome string) :=
  toolkit math_tool_names ∪ toolkit time_tool_names.

(** [state["messages"][-1].tool_calls] *)
Definition last_tool_calls (state : AgentState) : result (list ToolCall) :=
  match last (messages state) with
  | None => Raise IndexError
  | Some last_message =>
      match msg_tool_calls (msg last_message) with
      | None => Raise AttributeError
      | Some calls => Ok calls
      end
  end.

(** The loop of [tool_node] (lines 100-103). *)
Fixpoint invoke_tools (calls : list ToolCall) : result (list Entry) :=
  match calls with
  | [] => Ok []
  | tool_call :: rest =>
      match tool_map !! tc_name tool_call with
      | None => Raise (KeyError (tc_name tool_call))
      | Some tool =>
          match tool (tc_args tool_call) with
          | Failed why => Raise (ToolException why)
          | Returned observation =>
              let* result := invoke_tools rest in
              Ok (Add None (ToolMessage observation (tc_id tool_call))
                  :: result)
          end
      end
  end.

(** [tool_node] (lines 98-104). *)
Definition tool_node (state : AgentState) : result Update :=
  let* calls := last_tool_calls state in
  let* result := invoke_tools calls in
  Ok (mkUpdate (Some result) None None None None).

(** *** The step graph *)

Inductive Node : Type :=
| RuntimeLoad
| DeleteToolMessage
| SummarizeConversation
| LlmCall
| ToolNode.

Inductive Target : Type :=
| Goto (n : Node)
| END.

(** [should_continue] (lines 106-117). *)
Definition should_continue (state : AgentState) : result Target :=
  let* calls := last_tool_calls state in
  if nonempty calls then Ok (Goto ToolNode) else Ok END.

Definition run_node (thread_id : string) (n : Node) (state : AgentState)
  : result Update :=
  match n with
  | RuntimeLoad => runtime_load_node thread_id state
  | DeleteToolMessage => delete_tool_message_node state
  | SummarizeConversation => summarize_conversation_node state
  | LlmCall => llm_call_node state
  | ToolNode => tool_node state
  end.

(** The edges (lines 130-139), followed on the merged state. *)
Definition edge (n : Node) (state : AgentState) : result Target :=
  match n with
  | RuntimeLoad => Ok (Goto DeleteToolMessage)
  | DeleteToolMessage => Ok (Goto SummarizeConversation)
  | SummarizeConversation => Ok (Goto LlmCall)
  | LlmCall => should_continue state
  | ToolNode => Ok (Goto LlmCall)
  end.

(** Modelled from the spec: the executor and the checkpointer of the
    compiled graph (lines 142-144) are LangGraph's and not part of the
    repository. A checkpoint is a snapshot of the state with the node to
    run next. *)
Record Checkpoint : Type := mkCheckpoint {
  values : AgentState;
  next : Target
}.

(** A node's effect on the state: run it and merge its output. *)
Definition node_step (thread_id : string) (n : Node) (state : AgentState)
  : result AgentState :=
  let* upd := run_node thread_id n state in
  apply_update state upd.

(** Modelled from the spec: one step of the engine runs the node, merges
    its partial update into the state and follows the edge; the conditional
    edge reads the merged state. *)
Definition superstep (thread_id : string) (n : Node) (state : AgentState)
  : result Checkpoint :=
  let* state' := node_step thread_id n state in
  let* nx := edge n state' in
  Ok (mkCheckpoint state' nx).

(** *** The checkpointer and the engine *)

(** Modelled from the spec: the checkpoint store keeps, under each thread
    identifier, the versions written, most recent first; [get_latest] reads
    the current one and [put] writes a new version. *)
Definition get_latest (store : gmap string (list Checkpoint))
    (thread_id : string) : option Checkpoint :=
  store !! thread_id ≫= head.

Definition put (store : gmap string (list Checkpoint))
    (thread_id : string) (cp : Checkpoint)
  : gmap string (list Checkpoint) :=
  <[thread_id := cp :: default [] (store !! thread_id)]> store.

Inductive Status : Type :=
| Done (final : AgentState)      (* the turn reached END *)
| Crashed (e : exn)              (* a step raised *)
| Killed                         (* the process stopped between steps *)
| NoCheckpoint.                  (* nothing saved for the thread *)

(** Modelled from the spec: the engine's loop holds the current
    checkpoint in memory; it runs the next node, saves the resulting
    checkpoint before it advances, and goes on from it. [fuel] is the number
    of steps the process lives for. *)
Fixpoint run (fuel : nat) (thread_id : string) (cp : Checkpoint)
    (store : gmap string (list Checkpoint))
  : gmap string (list Checkpoint) * Status :=
  match next cp with
  | END => (store, Done (values cp))
  | Goto n =>
      match fuel with
      | O => (store, Killed)
      | S fuel' =>
          match superstep thread_id n (values cp) with
          | Raise e => (store, Crashed e)
          | Ok cp' => run fuel' thread_id cp' (put store thread_id cp')
          end
      end
  end.

(** The checkpoint the loop holds in memory when it stops. *)
Fixpoint in_memory (fuel : nat) (thread_id : string) (cp : Checkpoint)
  : Checkpoint :=
  match next cp with
  | END => cp
  | Goto n =>
      match fuel with
      | O => cp
      | S fuel' =>
          match superstep thread_id n (values cp) with
          | Raise e => cp
          | Ok cp' => in_memory fuel' thread_id cp'
          end
      end
  end.

(** Modelled from the spec: a restarted process has nothing in memory;
    resumption reads the thread's last saved checkpoint and goes on from
    its next node. *)
Definition resume (fuel : nat) (thread_id : string)
    (store : gmap string (list Checkpoint))
  : gmap string (list Checkpoint) * Status :=
  match get_latest store thread_id with
  | None => (store, NoCheckpoint)
  | Some cp => run fuel thread_id cp store
  end.

(** Modelled from the spec: at the start of a turn the input is merged
    into the thread's last saved state, and the result is saved with the
    entry node of the graph (line 130) as next. *)
Definition begin_turn (thread_id : string) (input : Update)
    (store : gmap string (list Checkpoint)) : result Checkpoint :=
  let state := match get_latest store thread_id with
               | Some cp => values cp
               | None => empty_state
               end in
  let* state' := apply_update state input in
  Ok (mkCheckpoint state' (Goto RuntimeLoad)).

(** A turn of the compiled graph on a new input. *)
Definition invoke (fuel : nat) (thread_id : string) (input : Update)
    (store : gmap string (list Checkpoint))
  : gmap string (list Checkpoint) * Status :=
  match begin_turn thread_id input store with
  | Raise e => (store, Crashed e)
  | Ok cp => run fuel thread_id cp (put store thread_id cp)
  end.

(** The service: [chat] and, when it answers with the event stream, the
    turn behind it. [None] means that no turn was started. *)
Definition stream_chat (fuel : nat) (x_user x_sess : option string)
    (message : string) (store : gmap string (list Checkpoint))
  : gmap string (list Checkpoint) * option Status :=
  match chat x_user x_sess message with
  | JSONResponse _ _ => (store, None)
  | EventSourceResponse thread_id input =>
      let r := invoke fuel thread_id input store in (r.1, Some r.2)
  end.

(** What [list_history_message] answers: an error, or the role and the
    content of each message. *)
Inductive History : Type :=
| HistoryError (code : Z) (error : string)
| HistoryMessages (l : list (string * string)).

(** [list_history_message] ([main.py], lines 140-158): the messages of the
    first snapshot of the thread's history, the most recent one; none when
    the thread has no snapshot. *)
Definition list_history_message (x_user x_sess : option string)
    (store : gmap string (list Checkpoint)) : History :=
  if header_missing x_user || header_missing x_sess
  then HistoryError (-1) "invalid user"
  else
    let found :=
      match get_latest store
              (thread_id_of (default "" x_user) (default "" x_sess)) with
      | Some chunk => messages (values chunk)
      | None => []
      end in
    HistoryMessages ((λ m, (msg_type (msg m), msg_content (msg m))) <$> found).

(** The checkpoints of a turn: [reachable k cp] when [cp] is saved after
    [k] steps of a turn that started from some state. *)
Inductive reachable (thread_id : string) : nat → Checkpoint → Prop :=
| reachable_start state :
    reachable thread_id 0 (mkCheckpoint state (Goto RuntimeLoad))
| reachable_step k cp n cp' :
    reachable thread_id k cp →
    next cp = Goto n →
    superstep thread_id n (values cp) = Ok cp' →
    reachable thread_id (S k) cp'.

(** *** Notions used in the statements *)

(** The dict of the merge loop knows exactly the ids of [merged]. *)
Definition by_id_exact (st : Merge) : Prop :=
  ∀ i, merged_by_id st !! i = None ↔ i ∉ ids (merged st).

(** The invariant of the merge loop: the dict knows exactly the ids of
    [merged], each at the index of a message with that id, and the ids of
    [merged] are distinct. *)
Definition merge_inv (st : Merge) : Prop :=
  by_id_exact st
  ∧ NoDup (ids (merged st))
  ∧ ∀ i k, merged_by_id st !! i = Some k → ids (merged st) !! k = Some i.

(** The stored messages of a checkpoint have distinct ids. *)
Definition distinct_ids (cp : Checkpoint) : Prop :=
  NoDup (ids (messages (values cp))).

(** The messages a removal of all tool artifacts leaves. *)
Definition pruned (l : list Stored) : list Stored :=
  filter (λ m, msg_id m
               ∉ ids (filter (λ m, is_tool_artifact (msg m) = true) l)) l.

(** A tool-result message, or an assistant message with tool calls. *)
Definition tool_artifact (m : Message) : Prop :=
  (∃ content call_id, m = ToolMessage content call_id)
  ∨ (∃ content calls, m = AIMessage content calls ∧ calls ≠ []).

(** A call is answered when its tool is in the registry and its
    invocation returns. *)
Definition answered (c : ToolCall) : Prop :=
  tc_name c ∈ math_tool_names ++ time_tool_names
  ∧ ∃ observation, tool_ainvoke (tc_name c) (tc_args c) = Returned observation.

(** What the tool of an answered call returns. *)
Definition observation_of (c : ToolCall) : string :=
  match tool_ainvoke (tc_name c) (tc_args c) with
  | Returned observation => observation
  | Failed _ => ""
  end.

(** The tool-result messages of a list of answered calls. *)
Definition tool_messages (calls : list ToolCall) : list Message :=
  (λ c, ToolMessage (observation_of c) (tc_id c)) <$> calls.

(** Where a turn stands after [k] steps: the three opening steps run in
    order, the summary is empty from the first of them until the
    compaction, and afterwards only the model, the tools or the end
    follow. *)
Definition turn_shape (k : nat) (cp : Checkpoint) : Prop :=
  match k with
  | 0%nat => next cp = Goto RuntimeLoad
  | 1%nat => next cp = Goto DeleteToolMessage
             ∧ current_summary (values cp) = Some ""
  | 2%nat => next cp = Goto SummarizeConversation
             ∧ current_summary (values cp) = Some ""
  | _ => next cp = Goto LlmCall ∨ next cp = Goto ToolNode ∨ next cp = END
  end.

(** The exception of a call that is not answered: [KeyError] for a tool
    that the registry does not hold, else the exception of the tool. *)
Definition failure_of (c : ToolCall) : option exn :=
  if bool_decide (tc_name c ∈ math_tool_names ++ time_tool_names)
  then match tool_ainvoke (tc_name c) (tc_args c) with
       | Returned _ => None
       | Failed why => Some (ToolException why)
       end
  else Some (KeyError (tc_name c)).

(** The exceptions a step of a turn can end with. *)
Definition step_failure (thread_id : string) (n : Node) (e : exn) : Prop :=
  match n with
  | RuntimeLoad => e = IndexError ∧ contains delimiter thread_id = false
  | DeleteToolMessage => False
  | SummarizeConversation | LlmCall => ∃ why, e = ModelError why
  | ToolNode =>
      (∃ name, e = KeyError name
               ∧ name ∉ math_tool_names ++ time_tool_names)
      ∨ (∃ why, e = ToolException why)
  end.

(** *** Results *)

Lemma bind_Ok {A B} (r : result A) (k : A → result B) b :
  bind r k = Ok b ↔ ∃ a, r = Ok a ∧ k a = Ok b.
Proof.
  destruct r as [a|e]; simpl; split.
  - eauto.
  - by intros (a' & [= ->] & ?).
  - done.
  - by intros (? & ? & ?).
Qed.

(** *** The thread identifier *)

Lemma split_cons_nonempty sep s : split sep s ≠ [].
Proof.
  destruct s as [|c r]; simpl; [done|].
  case_bool_decide; [done|]. by destruct (split sep r).
Qed.

Lemma split_no_sep sep s : contains sep s = false → split sep s = [s].
Proof.
  induction s as [|c r IH]; simpl; [done|].
  intros [Hc Hr]%orb_false_iff.
  apply bool_decide_eq_false in Hc.
  rewrite bool_decide_eq_false_2 by done. by rewrite IH.
Qed.

Lemma split_app_sep sep a b :
  contains sep a = false →
  split sep (a +:+ String sep b) = a :: split sep b.
Proof.
  induction a as [|c r IH]; simpl.
  - intros _. by rewrite bool_decide_eq_true_2.
  - intros [Hc Hr]%orb_false_iff.
    apply bool_decide_eq_false in Hc.
    rewrite bool_decide_eq_false_2 by done. by rewrite IH.
Qed.

Lemma split_thread_id a b :
  contains delimiter a = false → contains delimiter b = false →
  split delimiter (thread_id_of a b) = [a; b].
Proof.
  intros Ha Hb. unfold thread_id_of.
  by rewrite split_app_sep, split_no_sep.
Qed.

(** C7: for a thread identifier "A-B" whose components A and B are
    non-empty and contain no '-', the load-identity step
    ([runtime_load_node]) recovers [current_user_id = A] and
    [current_session_id = B]; and formatting is injective on such pairs, so
    no two distinct (user, session) pairs share a thread identifier. *)
Theorem thread_id_round_trip (a b : string) (state : AgentState) :
  truthy a = true → truthy b = true →
  contains delimiter a = false → contains delimiter b = false →
  (∃ upd, runtime_load_node (thread_id_of a b) state = Ok upd
          ∧ upd_user_id upd = Some a ∧ upd_session_id upd = Some b)
  ∧ (∀ a' b', truthy a' = true → truthy b' = true →
       contains delimiter a' = false → contains delimiter b' = false →
       thread_id_of a' b' = thread_id_of a b → a' = a ∧ b' = b).
Proof.
  intros _ _ Ha Hb. split.
  - unfold runtime_load_node. rewrite split_thread_id by done. simpl. eauto.
  - intros a' b' _ _ Ha' Hb' Heq.
    assert (Hs : [a'; b'] = [a; b]).
    { rewrite <- (split_thread_id a' b'), <- (split_thread_id a b) by done.
      by rewrite Heq. }
    by inversion Hs.
Qed.

(** The identifier of user [u1] and session [s1]. *)
Lemma thread_id_round_trip_witness :
  ∃ upd, runtime_load_node (thread_id_of "u1" "s1")
           (mkAgentState [] None None None None) = Ok upd
         ∧ upd_user_id upd = Some "u1" ∧ upd_session_id upd = Some "s1".
Proof.
  exact (proj1 (thread_id_round_trip "u1" "s1"
                  (mkAgentState [] None None None None)
                  eq_refl eq_refl eq_refl eq_refl)).
Defined.

(** *** More on thread identifiers and the load-identity step *)

Lemma split_contains_false sep s w :
  w ∈ split sep s → contains sep w = false.
Proof.
  revert w. induction s as [|c r IH]; intros w; simpl.
  - by intros ->%list_elem_of_singleton.
  - case_bool_decide as Hc.
    + intros [->|Hw]%elem_of_cons; [done|by apply IH].
    + destruct (split sep r) as [|v vs] eqn:Hs.
      * intros ->%list_elem_of_singleton. simpl.
        by rewrite bool_decide_eq_false_2.
      * intros [->|Hw]%elem_of_cons.
        -- simpl. rewrite bool_decide_eq_false_2 by done. simpl.
           apply IH. by left.
        -- apply IH. by right.
Qed.

Lemma split_two sep s :
  contains sep s = true → ∃ a b rest, split sep s = a :: b :: rest.
Proof.
  induction s as [|c r IH]; simpl; [done|].
  case_bool_decide as Hc; simpl.
  - intros _. destruct (split sep r) as [|v vs] eqn:Hs.
    + by destruct (split_cons_nonempty sep r).
    + by exists "", v, vs.
  - intros (a & b & rest & ->)%IH. by exists (String c a), b, rest.
Qed.

Lemma contains_app_sep sep a b : contains sep (a +:+ String sep b) = true.
Proof.
  induction a as [|c r IH]; simpl.
  - by rewrite bool_decide_eq_true_2.
  - by rewrite IH, orb_true_r.
Qed.

Lemma append_cons (x : ascii) (a b : string) :
  String x a +:+ b = String x (a +:+ b).
Proof. reflexivity. Qed.

Lemma append_assoc (a b c : string) : (a +:+ b) +:+ c = a +:+ (b +:+ c).
Proof.
  induction a as [|x a IH]; [done|]. by rewrite !append_cons, IH.
Qed.

Lemma append_longer (a b : string) : a +:+ b = a → b = "".
Proof.
  induction a as [|x a IH]; [done|]. rewrite append_cons.
  intros [= Heq]. by apply IH.
Qed.

Lemma truthy_append a b : truthy b = true → truthy (a +:+ b) = true.
Proof. destruct a; [done|]. by rewrite append_cons. Qed.

(** X1: the load-identity step raises [IndexError] exactly on a thread
    identifier without '-', and returns on every other one; it never raises
    on an identifier that [chat] has formatted. *)
Theorem load_identity_needs_delimiter (thread_id : string)
    (state : AgentState) :
  (contains delimiter thread_id = false →
   runtime_load_node thread_id state = Raise IndexError)
  ∧ (contains delimiter thread_id = true →
     ∃ upd, runtime_load_node thread_id state = Ok upd)
  ∧ (∀ user sess,
       ∃ upd, runtime_load_node (thread_id_of user sess) state = Ok upd).
Proof.
  assert (Hdelim : ∀ t, contains delimiter t = true →
            ∃ upd, runtime_load_node t state = Ok upd).
  { intros t (a & b & rest & Hs)%split_two.
    unfold runtime_load_node. rewrite Hs. simpl. eauto. }
  split; [|split].
  - intros Hs%split_no_sep. unfold runtime_load_node. by rewrite Hs.
  - apply Hdelim.
  - intros user sess. apply Hdelim, contains_app_sep.
Qed.

(** X2: the update of the load-identity step writes no message, sets the
    summary to the empty string, and gives a user id and a session id that
    are the first two components of the identifier and contain no '-'; the
    merge of this update leaves the messages as they are and replaces
    whatever summary the thread had. *)
Theorem load_identity_update (thread_id : string) (state : AgentState)
    (upd : Update) :
  runtime_load_node thread_id state = Ok upd →
  ∃ user sess rest,
    split delimiter thread_id = user :: sess :: rest
    ∧ upd = mkUpdate None (Some user) (Some ("用户" +:+ user)) (Some sess)
                     (Some "")
    ∧ contains delimiter user = false ∧ contains delimiter sess = false
    ∧ apply_update state upd
      = Ok (mkAgentState (messages state) (Some user)
              (Some ("用户" +:+ user)) (Some sess) (Some "")).
Proof.
  unfold runtime_load_node. intros Hload.
  destruct (split delimiter thread_id) as [|user [|sess rest]] eqn:Hs;
    [done..|].
  simpl in Hload. injection Hload as <-.
  exists user, sess, rest. repeat split.
  - apply (split_contains_false delimiter thread_id). rewrite Hs. by left.
  - apply (split_contains_false delimiter thread_id). rewrite Hs.
    right. by left.
Qed.

(** X3: for a user id without '-', the load-identity step gives back the
    user id, and as session id the part of the session id before its first
    '-': the session id comes back whole exactly when it contains no '-'. *)
Theorem session_id_truncated (user sess : string) (state : AgentState) :
  contains delimiter user = false →
  ∃ upd loaded,
    runtime_load_node (thread_id_of user sess) state = Ok upd
    ∧ upd_user_id upd = Some user
    ∧ upd_session_id upd = Some loaded
    ∧ head (split delimiter sess) = Some loaded
    ∧ (loaded = sess ↔ contains delimiter sess = false).
Proof.
  intros Huser. unfold runtime_load_node, thread_id_of.
  rewrite split_app_sep by done.
  destruct (split delimiter sess) as [|loaded rest] eqn:Hs.
  { by destruct (split_cons_nonempty delimiter sess). }
  simpl. eexists _, loaded. split; [reflexivity|]. simpl. repeat split.
  - intros ->. apply (split_contains_false delimiter sess).
    rewrite Hs. by left.
  - intros Hsess%split_no_sep. rewrite Hs in Hsess. by injection Hsess.
Qed.

(** X4: the thread identifier does not tell where the user id ends: the
    pairs ("A-B", "C") and ("A", "B-C") are distinct and have one thread
    identifier, so [chat] starts the same turn for both and
    [list_history_message] answers both with the same history. *)
Theorem thread_id_shared (a b c : string) :
  thread_id_of (thread_id_of a b) c = thread_id_of a (thread_id_of b c)
  ∧ thread_id_of a b ≠ a
  ∧ (truthy a = true → truthy c = true →
     (∀ message,
        chat (Some (thread_id_of a b)) (Some c) message
        = chat (Some a) (Some (thread_id_of b c)) message)
     ∧ ∀ store,
         list_history_message (Some (thread_id_of a b)) (Some c) store
         = list_history_message (Some a) (Some (thread_id_of b c)) store).
Proof.
  assert (Hassoc : thread_id_of (thread_id_of a b) c
                   = thread_id_of a (thread_id_of b c)).
  { unfold thread_id_of. by rewrite append_assoc. }
  split; [done|]. split.
  - unfold thread_id_of. by intros ?%append_longer.
  - intros Ha Hc.
    assert (Hab : truthy (thread_id_of a b) = true) by by apply truthy_append.
    assert (Hbc : truthy (thread_id_of b c) = true) by by apply truthy_append.
    split.
    + intros message. unfold chat. simpl. by rewrite Ha, Hc, Hab, Hbc, Hassoc.
    + intros store. unfold list_history_message. simpl.
      by rewrite Ha, Hc, Hab, Hbc, Hassoc.
Qed.

(** *** The reducer *)

Lemma ids_app l k : ids (l ++ k) = ids l ++ ids k.
Proof. apply fmap_app. Qed.

Lemma ids_cons x l : ids (x :: l) = msg_id x :: ids l.
Proof. done. Qed.

Lemma index_by_id_snoc l x :
  index_by_id (l ++ [x]) = <[msg_id x := length l]> (index_by_id l).
Proof.
  unfold index_by_id. rewrite imap_app, foldl_app. simpl.
  by rewrite Nat.add_0_r.
Qed.

Lemma index_by_id_None l i : index_by_id l !! i = None ↔ i ∉ ids l.
Proof.
  induction l as [|x l IH] using rev_ind.
  - unfold index_by_id. simpl. rewrite lookup_empty.
    split; [intros _; apply not_elem_of_nil | done].
  - rewrite index_by_id_snoc, lookup_insert_None, IH, ids_app. simpl.
    rewrite not_elem_of_app, not_elem_of_cons.
    split; [intros [? ?] | intros [? [? _]]]; repeat split; try done.
    apply not_elem_of_nil.
Qed.

Lemma merge_start_exact left : by_id_exact (merge_start left).
Proof. intros i. apply index_by_id_None. Qed.

Lemma assign_ids_removals used l :
  assign_ids used (RemoveMessage <$> l) = Del <$> l.
Proof.
  revert used. induction l as [|i l IH]; intros used; simpl; [done|].
  by rewrite IH.
Qed.

Lemma merge_all_removals st l :
  (∀ i, i ∈ l → i ∈ ids (merged st)) → by_id_exact st →
  merge_all st (Del <$> l)
  = Ok (mkMerge (merged st) (merged_by_id st)
                (list_to_set l ∪ ids_to_remove st)).
Proof.
  revert st. induction l as [|i l IH]; intros st Hin Hex; simpl.
  - destruct st as [m b r]. simpl. f_equal. f_equal.
    by rewrite (left_id_L ∅ (∪)).
  - destruct (merged_by_id st !! i) as [k|] eqn:Hk.
    + simpl. rewrite IH; simpl.
      * f_equal. f_equal.
        by rewrite (assoc_L (∪)), (comm_L (∪) (list_to_set l) {[i]}).
      * intros j Hj. apply Hin. by right.
      * exact Hex.
    + apply Hex in Hk. destruct Hk. apply Hin. by left.
Qed.

Lemma filter_all {A} (P : A → Prop) `{∀ x, Decision (P x)} (l : list A) :
  (∀ x, x ∈ l → P x) → filter P l = l.
Proof.
  induction l as [|x l IH]; intros Hall; [done|].
  rewrite filter_cons_True by (apply Hall; by left).
  f_equal. apply IH. intros y Hy. apply Hall. by right.
Qed.

(** Removals of stored messages: the messages with these ids go. *)
Lemma add_messages_removals left l :
  (∀ i, i ∈ l → i ∈ ids left) →
  add_messages left (RemoveMessage <$> l)
  = Ok (filter (λ m, msg_id m ∉ l) left).
Proof.
  intros Hin. unfold add_messages.
  rewrite assign_ids_removals, merge_all_removals; simpl;
    [|done|apply merge_start_exact].
  f_equal. apply list_filter_iff. intros m.
  by rewrite (right_id_L ∅ (∪)), elem_of_list_to_set.
Qed.

Lemma add_messages_nil left : add_messages left [] = Ok left.
Proof.
  change (@nil Entry) with (RemoveMessage <$> []).
  rewrite add_messages_removals by (intros i Hi; by apply elem_of_nil in Hi).
  f_equal. apply filter_all. intros m _. apply not_elem_of_nil.
Qed.

(** Messages are never refused: only a [RemoveMessage] can raise. *)
Lemma merge_all_puts st news : ∃ st', merge_all st (Put <$> news) = Ok st'.
Proof.
  revert st. induction news as [|m news IH]; intros st; simpl; [eauto|].
  destruct (merged_by_id st !! msg_id m); simpl; apply IH.
Qed.

Lemma assign_ids_adds used (l : list (option string * Message)) :
  ∃ news, assign_ids used ((λ p, Add p.1 p.2) <$> l) = Put <$> news.
Proof.
  revert used. induction l as [|[[i|] m] l IH]; intros used; csimpl.
  - by exists [].
  - destruct (IH (i :: used)) as [news ->].
    by exists (mkStored i m :: news).
  - destruct (IH (uuid4 used :: used)) as [news ->].
    by exists (mkStored (uuid4 used) m :: news).
Qed.

Lemma add_messages_adds left (l : list (option string * Message)) :
  ∃ res, add_messages left ((λ p, Add p.1 p.2) <$> l) = Ok res.
Proof.
  unfold add_messages.
  destruct (assign_ids_adds (ids left) l) as [news ->].
  destruct (merge_all_puts (merge_start left) news) as [st' ->].
  simpl. eauto.
Qed.

(** New messages with new ids are appended in order. *)
Lemma merge_all_appends st news :
  by_id_exact st → NoDup (ids news) →
  (∀ i, i ∈ ids news → i ∉ ids (merged st)) →
  ∃ by_id,
    merge_all st (Put <$> news)
    = Ok (mkMerge (merged st ++ news) by_id (ids_to_remove st))
    ∧ by_id_exact (mkMerge (merged st ++ news) by_id (ids_to_remove st)).
Proof.
  revert st. induction news as [|m news IH]; intros st Hex Hnd Hnew; simpl.
  - exists (merged_by_id st). rewrite app_nil_r. by destruct st.
  - simpl in Hnd. apply NoDup_cons in Hnd as [Hm Hnd].
    assert (Hnone : merged_by_id st !! msg_id m = None).
    { apply Hex, Hnew. by left. }
    rewrite Hnone. simpl.
    set (st1 := mkMerge (merged st ++ [m])
                  (<[msg_id m:=length (merged st)]> (merged_by_id st))
                  (ids_to_remove st)).
    destruct (IH st1) as (by_id & Hrun & Hex').
    + intros i. simpl. rewrite lookup_insert_None, ids_app, (Hex i). simpl.
      rewrite not_elem_of_app, not_elem_of_cons.
      split; [intros [? ?] | intros [? [? _]]]; repeat split; try done.
      apply not_elem_of_nil.
    + done.
    + intros i Hi. simpl. rewrite ids_app. simpl.
      rewrite not_elem_of_app, not_elem_of_cons. repeat split.
      * apply Hnew. by right.
      * intros ->. done.
      * apply not_elem_of_nil.
    + exists by_id. simpl in Hrun, Hex'.
      rewrite <- app_assoc in Hrun, Hex'. simpl in Hrun, Hex'. done.
Qed.

(** Stored ids stay distinct, whatever is merged. *)
Lemma index_by_id_Some l i k :
  index_by_id l !! i = Some k → ids l !! k = Some i.
Proof.
  revert k. induction l as [|x l IH] using rev_ind; intros k.
  - unfold index_by_id. simpl. by rewrite lookup_empty.
  - rewrite index_by_id_snoc, ids_app.
    destruct (decide (msg_id x = i)) as [<-|Hne].
    + rewrite lookup_insert_eq. intros [= <-].
      apply list_lookup_middle. unfold ids. by rewrite length_fmap.
    + rewrite lookup_insert_ne by done. intros Hk%IH.
      by rewrite lookup_app_l by (by eapply lookup_lt_Some).
Qed.

Lemma merge_start_inv left : NoDup (ids left) → merge_inv (merge_start left).
Proof.
  intros Hnd. split; [apply merge_start_exact|]. split; [done|].
  intros i k. apply index_by_id_Some.
Qed.

Lemma ids_insert l k m :
  ids l !! k = Some (msg_id m) → ids (<[k:=m]> l) = ids l.
Proof.
  intros Hk. unfold ids in *. rewrite list_fmap_insert.
  by apply list_insert_id.
Qed.

Lemma merge_step_inv st e st' :
  merge_inv st → merge_step st e = Ok st' → merge_inv st'.
Proof.
  intros (Hex & Hnd & Hidx). destruct e as [m|i]; simpl.
  - destruct (merged_by_id st !! msg_id m) as [k|] eqn:Hk; intros [= <-].
    + assert (Hids : ids (<[k:=m]> (merged st)) = ids (merged st)).
      { by apply ids_insert, Hidx. }
      split; [|split]; simpl.
      * intros i. simpl. rewrite Hids. apply Hex.
      * by rewrite Hids.
      * intros i j. rewrite Hids. apply Hidx.
    + assert (Hnew : msg_id m ∉ ids (merged st)) by by apply Hex.
      split; [|split]; simpl.
      * intros i. simpl. rewrite lookup_insert_None, ids_app, (Hex i). simpl.
        rewrite not_elem_of_app, not_elem_of_cons.
        split; [intros [? ?] | intros [? [? _]]]; repeat split; try done.
        apply not_elem_of_nil.
      * rewrite ids_app. apply NoDup_app. split; [done|].
        split; [|apply NoDup_singleton].
        intros i Hi [->|Hnil%elem_of_nil]%elem_of_cons; done.
      * intros i j. rewrite ids_app.
        destruct (decide (msg_id m = i)) as [<-|Hne].
        -- rewrite lookup_insert_eq. intros [= <-].
           apply list_lookup_middle. unfold ids. by rewrite length_fmap.
        -- rewrite lookup_insert_ne by done. intros Hj%Hidx.
           by rewrite lookup_app_l by (by eapply lookup_lt_Some).
  - destruct (merged_by_id st !! i); intros [= <-]. by split.
Qed.

Lemma merge_all_inv st es st' :
  merge_inv st → merge_all st es = Ok st' → merge_inv st'.
Proof.
  revert st. induction es as [|e es IH]; intros st Hinv; simpl.
  - by intros [= <-].
  - intros (st1 & Hstep & Hrest)%bind_Ok.
    apply (IH st1); [by apply (merge_step_inv st e)|done].
Qed.

Lemma NoDup_ids_filter (P : Stored → Prop) `{∀ x, Decision (P x)}
    (l : list Stored) :
  NoDup (ids l) → NoDup (ids (filter P l)).
Proof.
  induction l as [|x l IH]; [done|].
  rewrite ids_cons. intros [Hx Hnd]%NoDup_cons.
  destruct (decide (P x)).
  - rewrite filter_cons_True by done. rewrite ids_cons.
    apply NoDup_cons. split; [|by apply IH].
    intros Hin. apply Hx. unfold ids in *.
    apply list_elem_of_fmap in Hin as (y & Hy & Hin).
    apply list_elem_of_filter in Hin as [_ Hin].
    apply list_elem_of_fmap. eauto.
  - rewrite filter_cons_False by done. by apply IH.
Qed.

Lemma add_messages_NoDup left right res :
  NoDup (ids left) → add_messages left right = Ok res → NoDup (ids res).
Proof.
  intros Hnd. unfold add_messages. intros (st & Hmerge & [= <-])%bind_Ok.
  apply NoDup_ids_filter.
  by apply (merge_all_inv _ _ _ (merge_start_inv left Hnd)) in Hmerge
    as (_ & ? & _).
Qed.

Lemma filter_ext_elem {A} (P Q : A → Prop) `{∀ x, Decision (P x)}
    `{∀ x, Decision (Q x)} (l : list A) :
  (∀ x, x ∈ l → (P x ↔ Q x)) → filter P l = filter Q l.
Proof.
  induction l as [|x l IH]; intros Hext; [done|].
  assert (Hl : filter P l = filter Q l).
  { apply IH. intros y Hy. apply Hext. by right. }
  destruct (decide (P x)) as [HP|HP].
  - rewrite !filter_cons_True; [by rewrite Hl | | done].
    apply Hext; [by left | done].
  - rewrite !filter_cons_False; [done | | done].
    intros HQ. apply HP, Hext; [by left | done].
Qed.

Lemma filter_none {A} (P : A → Prop) `{∀ x, Decision (P x)} (l : list A) :
  (∀ x, x ∈ l → ¬ P x) → filter P l = [].
Proof.
  induction l as [|x l IH]; intros Hnone; [done|].
  rewrite filter_cons_False by (apply Hnone; by left).
  apply IH. intros y Hy. apply Hnone. by right.
Qed.

(** With distinct ids, removing the ids of a prefix leaves the rest. *)
Lemma filter_prefix_ids (l : list Stored) k :
  NoDup (ids l) →
  filter (λ m, msg_id m ∉ ids (take k l)) l = drop k l.
Proof.
  revert k. induction l as [|x l IH]; intros k Hnd.
  - by destruct k.
  - destruct k as [|k].
    + rewrite take_0, drop_0. apply filter_all.
      intros m _. apply not_elem_of_nil.
    + rewrite ids_cons in Hnd. apply NoDup_cons in Hnd as [Hx Hnd].
      rewrite firstn_cons, skipn_cons, ids_cons.
      rewrite filter_cons_False by (intros Hn; apply Hn; by left).
      rewrite <- (IH k Hnd). apply filter_ext_elem.
      intros m Hm. rewrite not_elem_of_cons.
      split; [by intros [_ ?] | intros ?; split; [|done]].
      intros Heq. apply Hx. rewrite <- Heq.
      apply list_elem_of_fmap. eauto.
Qed.

Lemma ids_take_subset (l : list Stored) k i :
  i ∈ ids (take k l) → i ∈ ids l.
Proof.
  unfold ids. rewrite !list_elem_of_fmap.
  intros (m & -> & Hm). exists m. split; [done|].
  by apply elem_of_take in Hm as (j & Hj & _); apply list_elem_of_lookup_2 in Hj.
Qed.

Lemma ids_filter_subset (P : Stored → Prop) `{∀ x, Decision (P x)}
    (l : list Stored) i :
  i ∈ ids (filter P l) → i ∈ ids l.
Proof.
  unfold ids. rewrite !list_elem_of_fmap.
  intros (m & -> & Hm). exists m. split; [done|].
  by apply list_elem_of_filter in Hm as [_ ?].
Qed.

Lemma removals_of_ids (l : list Stored) :
  (λ m, RemoveMessage (msg_id m)) <$> l = RemoveMessage <$> ids l.
Proof. unfold ids. by rewrite <- list_fmap_compose. Qed.

(** *** Merging a node's output *)

Lemma apply_update_no_update s : apply_update s no_update = Ok s.
Proof. by destruct s. Qed.

Lemma apply_update_messages s entries res :
  add_messages (messages s) entries = Ok res →
  apply_update s (mkUpdate (Some entries) None None None None)
  = Ok (mkAgentState res (current_user_id s) (current_user_name s)
          (current_session_id s) (current_summary s)).
Proof. intros Hadd. unfold apply_update. simpl. by rewrite Hadd. Qed.

(** *** The artifact pruner *)

Lemma is_tool_artifact_spec m :
  is_tool_artifact m = true ↔ tool_artifact m.
Proof.
  unfold tool_artifact.
  destruct m as [c|c calls|c i|c]; unfold is_tool_artifact; simpl.
  - split; [done|]. intros [(? & ? & ?)|(? & ? & ? & ?)]; done.
  - destruct calls as [|call calls]; simpl.
    + split; [done|]. intros [(? & ? & ?)|(? & ? & [= _ <-] & ?)]; done.
    + split; [|done]. intros _. right. by exists c, (call :: calls).
  - split; [|done]. intros _. left. by exists c, i.
  - split; [done|]. intros [(? & ? & ?)|(? & ? & ? & ?)]; done.
Qed.

Lemma prune_step thread_id s :
  node_step thread_id DeleteToolMessage s
  = Ok (mkAgentState (pruned (messages s)) (current_user_id s)
          (current_user_name s) (current_session_id s) (current_summary s)).
Proof.
  unfold node_step. simpl. apply apply_update_messages.
  rewrite removals_of_ids. apply add_messages_removals.
  apply ids_filter_subset.
Qed.

Lemma pruned_no_artifact l m :
  m ∈ pruned l → is_tool_artifact (msg m) = false.
Proof.
  unfold pruned. rewrite list_elem_of_filter. intros [Hid Hm].
  destruct (is_tool_artifact (msg m)) eqn:Hart; [|done].
  destruct Hid. unfold ids. apply list_elem_of_fmap. exists m.
  split; [done|]. by apply list_elem_of_filter.
Qed.

Lemma pruned_pruned l : pruned (pruned l) = pruned l.
Proof.
  unfold pruned at 1.
  replace (filter (λ m, is_tool_artifact (msg m) = true) (pruned l))
    with (@nil Stored).
  - apply filter_all. intros m _. apply not_elem_of_nil.
  - symmetry. apply filter_none. intros m Hm.
    by rewrite (pruned_no_artifact l m Hm).
Qed.

(** C6: the prune-tool-artifacts step ([delete_tool_message_node]) emits
    a removal directive for a message exactly when the message is a
    tool-result message or an assistant message carrying tool-call
    requests; and running the step twice in a row, with no message added
    in between, yields the same state as running it once. *)
Theorem prune_idempotent (thread_id : string) (state : AgentState) :
  (∃ emitted,
      delete_tool_message_node state
      = Ok (mkUpdate (Some ((λ m, RemoveMessage (msg_id m)) <$> emitted))
                     None None None None)
      ∧ ∀ m, m ∈ emitted ↔ m ∈ messages state ∧ tool_artifact (msg m))
  ∧ (∃ once,
      node_step thread_id DeleteToolMessage state = Ok once
      ∧ node_step thread_id DeleteToolMessage once = Ok once).
Proof.
  split.
  - eexists. split; [reflexivity|]. intros m.
    rewrite list_elem_of_filter, is_tool_artifact_spec. tauto.
  - eexists. split; [apply prune_step|].
    rewrite prune_step. simpl. by rewrite pruned_pruned.
Qed.

(** C5: when the approximate token count of the message sequence is
    below the threshold of 128,000 tokens, the compact-context step
    ([summarize_conversation_node]) emits no changes: the message
    sequence, the summary and the identity fields stay as they are. *)
Theorem compaction_below_threshold (thread_id : string)
    (state : AgentState) :
  count_tokens_approximately (messages state) < 128000 →
  summarize_conversation_node state = Ok no_update
  ∧ node_step thread_id SummarizeConversation state = Ok state
  ∧ superstep thread_id SummarizeConversation state
    = Ok (mkCheckpoint state (Goto LlmCall)).
Proof.
  intros Hlow.
  assert (Hnode : summarize_conversation_node state = Ok no_update).
  { unfold summarize_conversation_node.
    by rewrite bool_decide_eq_true_2 by lia. }
  assert (Hstep : node_step thread_id SummarizeConversation state = Ok state).
  { unfold node_step. simpl. rewrite Hnode. simpl.
    apply apply_update_no_update. }
  repeat split; [done..|].
  unfold superstep. by rewrite Hstep.
Qed.

Lemma length_last_two {A} (l : list A) :
  (2 ≤ length l)%nat → length (last_two l) = 2%nat.
Proof. intros Hl. unfold last_two. rewrite length_drop. lia. Qed.

Lemma all_but_last_two_last_two {A} (l : list A) :
  all_but_last_two l ++ last_two l = l.
Proof. apply take_drop. Qed.

(** The compaction over the budget: the node's output and its merge. *)
Lemma summarize_above thread_id state response :
  128000 ≤ count_tokens_approximately (messages state) →
  qwen3_8b (prompt_of (messages state)
            ++ [(None, HumanMessage (summary_message state))])
  = Returned response →
  summarize_conversation_node state
  = Ok (mkUpdate
          (Some (RemoveMessage <$> ids (all_but_last_two (messages state))))
          None None None (Some (reply_content response)))
  ∧ (NoDup (ids (messages state)) →
     node_step thread_id SummarizeConversation state
     = Ok (mkAgentState (last_two (messages state))
             (current_user_id state) (current_user_name state)
             (current_session_id state) (Some (reply_content response)))).
Proof.
  intros Hhigh Hmodel.
  assert (Hnode : summarize_conversation_node state
    = Ok (mkUpdate
            (Some (RemoveMessage <$> ids (all_but_last_two (messages state))))
            None None None (Some (reply_content response)))).
  { unfold summarize_conversation_node.
    rewrite bool_decide_eq_false_2 by lia.
    by rewrite Hmodel, removals_of_ids. }
  split; [done|]. intros Hnd.
  unfold node_step. simpl. rewrite Hnode. simpl.
  unfold apply_update. simpl.
  rewrite add_messages_removals by apply ids_take_subset. simpl.
  unfold all_but_last_two. by rewrite filter_prefix_ids.
Qed.

(** C4 (as amended): when the approximate token count is at or above
    128,000 and the summarization model answers, the compact-context step
    sets [current_summary] to the answer's content and emits a removal for
    each message except the two most recent; with distinct message ids,
    the messages left after the merge are exactly those two most recent
    ones (all of them when there are fewer than two), the identity fields
    are untouched, and the summary is non-empty when the answer's content
    is. *)
Theorem compaction_above_threshold (thread_id : string)
    (state : AgentState) (response : AIReply) :
  128000 ≤ count_tokens_approximately (messages state) →
  qwen3_8b (prompt_of (messages state)
            ++ [(None, HumanMessage (summary_message state))])
  = Returned response →
  NoDup (ids (messages state)) →
  summarize_conversation_node state
  = Ok (mkUpdate
          (Some (RemoveMessage <$> ids (all_but_last_two (messages state))))
          None None None (Some (reply_content response)))
  ∧ all_but_last_two (messages state) ++ last_two (messages state)
    = messages state
  ∧ ∃ state',
      node_step thread_id SummarizeConversation state = Ok state'
      ∧ messages state' = last_two (messages state)
      ∧ ((2 ≤ length (messages state))%nat →
         length (messages state') = 2%nat)
      ∧ current_summary state' = Some (reply_content response)
      ∧ (truthy (reply_content response) = true →
         truthy (default "" (current_summary state')) = true)
      ∧ current_user_id state' = current_user_id state
      ∧ current_user_name state' = current_user_name state
      ∧ current_session_id state' = current_session_id state.
Proof.
  intros Hhigh Hmodel Hnd.
  destruct (summarize_above thread_id state response Hhigh Hmodel)
    as [Hnode Hstep].
  split; [done|]. split; [apply all_but_last_two_last_two|].
  eexists. split; [by apply Hstep|]. simpl.
  repeat split; try done. apply length_last_two.
Qed.

(** *** The router *)

Lemma last_tool_calls_last s1 s2 :
  msg <$> last (messages s1) = msg <$> last (messages s2) →
  last_tool_calls s1 = last_tool_calls s2.
Proof.
  unfold last_tool_calls.
  destruct (last (messages s1)) as [m1|], (last (messages s2)) as [m2|];
    simpl; intros Heq; try done.
  by injection Heq as ->.
Qed.

(** C3: the route step ([should_continue]) is a function of the most
    recent message alone and returns nothing but its decision; when that
    message is an assistant message with one or more tool-call requests
    it selects tool execution, and when the tool-call list is empty (the
    value of an absent list) it selects termination. *)
Theorem should_continue_decision :
  (∀ s1 s2, msg <$> last (messages s1) = msg <$> last (messages s2) →
            should_continue s1 = should_continue s2)
  ∧ (∀ state i content calls,
       last (messages state) = Some (mkStored i (AIMessage content calls)) →
       (calls ≠ [] → should_continue state = Ok (Goto ToolNode))
       ∧ (calls = [] → should_continue state = Ok END)).
Proof.
  split.
  - intros s1 s2 Heq. unfold should_continue.
    by rewrite (last_tool_calls_last s1 s2 Heq).
  - intros state i content calls Hlast.
    unfold should_continue, last_tool_calls. rewrite Hlast. simpl.
    split; [by destruct calls | by intros ->].
Qed.

Lemma should_continue_no_tool_calls state i m :
  last (messages state) = Some (mkStored i m) →
  msg_tool_calls m = None →
  should_continue state = Raise AttributeError.
Proof.
  intros Hlast Hnone. unfold should_continue, last_tool_calls.
  by rewrite Hlast; simpl; rewrite Hnone.
Qed.

Lemma should_continue_tool_node state :
  should_continue state = Ok (Goto ToolNode) →
  ∃ i content calls,
    last (messages state) = Some (mkStored i (AIMessage content calls))
    ∧ calls ≠ [] ∧ last_tool_calls state = Ok calls.
Proof.
  unfold should_continue, last_tool_calls.
  destruct (last (messages state)) as [[i m]|]; [|done].
  destruct m as [c|c calls|c j|c]; simpl; try done.
  destruct calls as [|call calls]; simpl; [done|]. intros _.
  by exists i, c, (call :: calls).
Qed.

(** *** The shape of a turn *)

Lemma superstep_Ok thread_id n state cp :
  superstep thread_id n state = Ok cp →
  node_step thread_id n state = Ok (values cp)
  ∧ edge n (values cp) = Ok (next cp).
Proof.
  unfold superstep. intros (s' & Hstep & Hedge)%bind_Ok.
  apply bind_Ok in Hedge as (nx & Hedge & [= <-]). by simpl.
Qed.

Lemma load_step_summary thread_id state state' :
  node_step thread_id RuntimeLoad state = Ok state' →
  current_summary state' = Some "".
Proof.
  unfold node_step. simpl. intros (upd & Hload & Happly)%bind_Ok.
  unfold runtime_load_node in Hload.
  apply bind_Ok in Hload as (u0 & _ & Hload).
  apply bind_Ok in Hload as (u1 & _ & [= <-]).
  unfold apply_update in Happly. simpl in Happly. by injection Happly as <-.
Qed.

Lemma turn_shape_reachable thread_id k cp :
  reachable thread_id k cp → turn_shape k cp.
Proof.
  induction 1 as [state|k cp n cp' Hreach IH Hnext Hstep]; [done|].
  apply superstep_Ok in Hstep as [Hnode Hedge].
  destruct k as [|[|[|k]]]; simpl in IH |- *.
  - rewrite IH in Hnext. injection Hnext as <-.
    injection Hedge as <-. split; [done|].
    by apply (load_step_summary thread_id (values cp)).
  - destruct IH as [IHn IHs]. rewrite IHn in Hnext. injection Hnext as <-.
    injection Hedge as <-. split; [done|].
    rewrite prune_step in Hnode. by injection Hnode as <-.
  - destruct IH as [IHn IHs]. rewrite IHn in Hnext. injection Hnext as <-.
    injection Hedge as <-. by left.
  - destruct IH as [IHn|[IHn|IHn]]; rewrite IHn in Hnext; [| |done];
      injection Hnext as <-; simpl in Hedge.
    + unfold should_continue in Hedge.
      apply bind_Ok in Hedge as (calls & _ & Hedge).
      destruct (nonempty calls); injection Hedge as <-; auto.
    + injection Hedge as <-. by left.
Qed.

(** C10: within a turn the compact-context step never uses the
    extend-existing-summary instruction: the load-identity step has set
    the summary to the empty string, the compaction runs once, as the
    third step and before any generate step, and what
    [summarize_conversation_node] does there is what it does with the
    create-fresh instruction: below the threshold nothing, and from the
    threshold on one call of the summarization model on the history
    followed by the create-fresh instruction, whose answer becomes the
    summary. *)
Theorem compaction_creates_fresh_summary (thread_id : string) (k : nat)
    (cp : Checkpoint) :
  reachable thread_id k cp →
  (next cp = Goto SummarizeConversation →
     k = 2%nat ∧ current_summary (values cp) = Some ""
     ∧ summary_message (values cp) = create_instruction
     ∧ summarize_conversation_node (values cp)
       = if bool_decide
              (count_tokens_approximately (messages (values cp)) < 128 * 1000)
         then Ok no_update
         else
           match qwen3_8b (prompt_of (messages (values cp))
                           ++ [(None, HumanMessage create_instruction)]) with
           | Failed why => Raise (ModelError why)
           | Returned response =>
               Ok (mkUpdate
                     (Some ((λ m, RemoveMessage (msg_id m))
                            <$> all_but_last_two (messages (values cp))))
                     None None None (Some (reply_content response)))
           end)
  ∧ (next cp = Goto LlmCall → (3 ≤ k)%nat).
Proof.
  intros Hshape%turn_shape_reachable.
  destruct k as [|[|[|k]]]; simpl in Hshape.
  - split; intros Hn; by rewrite Hshape in Hn.
  - destruct Hshape as [Hnext _]. split; intros Hn; by rewrite Hnext in Hn.
  - destruct Hshape as [Hnext Hsum]. split.
    + intros _.
      assert (Hmsg : summary_message (values cp) = create_instruction).
      { unfold summary_message. by rewrite Hsum. }
      repeat split; [done..|].
      unfold summarize_conversation_node. by rewrite Hmsg.
    + intros Hn. by rewrite Hnext in Hn.
  - split; [|lia].
    intros Hn. destruct Hshape as [H|[H|H]]; by rewrite H in Hn.
Qed.

(** The two opening steps on a state without tool artifacts. *)
Lemma load_superstep thread_id state user sess rest :
  split delimiter thread_id = user :: sess :: rest →
  superstep thread_id RuntimeLoad state
  = Ok (mkCheckpoint
          (mkAgentState (messages state) (Some user)
             (Some ("用户" +:+ user)) (Some sess) (Some ""))
          (Goto DeleteToolMessage)).
Proof.
  intros Hs. unfold superstep, node_step. cbn [run_node].
  unfold runtime_load_node. by rewrite Hs.
Qed.

Lemma pruned_clean l :
  (∀ m, m ∈ l → is_tool_artifact (msg m) = false) → pruned l = l.
Proof.
  intros Hclean. unfold pruned.
  rewrite (filter_none (λ m, is_tool_artifact (msg m) = true) l).
  - apply filter_all. intros m _. apply not_elem_of_nil.
  - intros m Hm. by rewrite (Hclean m Hm).
Qed.

Lemma prune_superstep_clean thread_id state :
  (∀ m, m ∈ messages state → is_tool_artifact (msg m) = false) →
  superstep thread_id DeleteToolMessage state
  = Ok (mkCheckpoint state (Goto SummarizeConversation)).
Proof.
  intros Hclean. unfold superstep. rewrite prune_step.
  rewrite (pruned_clean _ Hclean). by destruct state.
Qed.

(** *** The tool registry *)

Lemma toolkit_lookup names name :
  toolkit names !! name
  = if bool_decide (name ∈ names) then Some (tool_ainvoke name) else None.
Proof.
  unfold toolkit. induction names as [|n names IH]; csimpl.
  - by rewrite lookup_empty.
  - destruct (decide (n = name)) as [->|Hne].
    + rewrite lookup_insert_eq.
      by rewrite bool_decide_eq_true_2 by (by left).
    + rewrite lookup_insert_ne by done. rewrite IH.
      case_bool_decide as Hin.
      * by rewrite bool_decide_eq_true_2 by (by right).
      * rewrite bool_decide_eq_false_2; [done|].
        rewrite not_elem_of_cons. by split.
Qed.

Lemma tool_map_lookup name :
  tool_map !! name
  = if bool_decide (name ∈ math_tool_names ++ time_tool_names)
    then Some (tool_ainvoke name) else None.
Proof.
  unfold tool_map. rewrite lookup_union, !toolkit_lookup.
  repeat case_bool_decide; try done; exfalso;
    rewrite elem_of_app in *; tauto.
Qed.

Lemma invoke_tools_answered calls :
  (∀ c, c ∈ calls → answered c) →
  invoke_tools calls = Ok (Add None <$> tool_messages calls).
Proof.
  induction calls as [|c calls IH]; intros Hall; [done|].
  destruct (Hall c) as [Hreg [obs Hobs]]; [by left|].
  simpl. rewrite tool_map_lookup, bool_decide_eq_true_2 by done.
  rewrite Hobs, IH by (intros c' Hc'; apply Hall; by right). simpl.
  unfold tool_messages. csimpl. unfold observation_of. by rewrite Hobs.
Qed.

Lemma invoke_tools_unanswered calls c :
  c ∈ calls → ¬ answered c → ∃ e, invoke_tools calls = Raise e.
Proof.
  induction calls as [|c' calls IH]; intros Hin Hno.
  - by apply elem_of_nil in Hin.
  - simpl. rewrite tool_map_lookup. case_bool_decide as Hreg; [|eauto].
    destruct (tool_ainvoke (tc_name c') (tc_args c')) as [obs|why] eqn:Hobs;
      [|eauto].
    apply elem_of_cons in Hin as [->|Hin].
    + destruct Hno. split; eauto.
    + destruct (IH Hin Hno) as [e ->]. simpl. eauto.
Qed.

(** *** New ids *)

Section FreshIds.

(** An id the reducer generates is not among the ids in use, and an id
    the chat model gives to its answer is not the id of a message of the
    prompt: message identity is unique within a thread. *)
Hypothesis uuid4_fresh : ∀ used, uuid4 used ∉ used.
Hypothesis model_id_fresh : ∀ prompt r i,
  qwen3_8b_with_tools prompt = Returned r →
  reply_id r = Some i → Some i ∉ prompt.*1.

Lemma assign_ids_new used (ms : list Message) :
  ∃ news, assign_ids used (Add None <$> ms) = Put <$> news
          ∧ msg <$> news = ms ∧ NoDup (ids news)
          ∧ ∀ i, i ∈ ids news → i ∉ used.
Proof.
  revert used. induction ms as [|m ms IH]; intros used; csimpl.
  - exists []. repeat split; [constructor|].
    intros i Hi. by apply elem_of_nil in Hi.
  - destruct (IH (uuid4 used :: used)) as (news & -> & Hmsg & Hnd & Hnew).
    exists (mkStored (uuid4 used) m :: news). csimpl.
    rewrite Hmsg. repeat split; simpl.
    + apply NoDup_cons. split; [|done].
      intros Hin. apply (Hnew _ Hin). by left.
    + intros i [->|Hi]%elem_of_cons; [apply uuid4_fresh|].
      intros Hused. apply (Hnew _ Hi). by right.
Qed.

(** New messages without id are appended, each under a new id. *)
Lemma add_messages_new left (ms : list Message) :
  ∃ news, add_messages left (Add None <$> ms) = Ok (left ++ news)
          ∧ msg <$> news = ms ∧ NoDup (ids news)
          ∧ ∀ i, i ∈ ids news → i ∉ ids left.
Proof.
  destruct (assign_ids_new (ids left) ms) as (news & Has & Hmsg & Hnd & Hnew).
  exists news. repeat split; try done.
  unfold add_messages. rewrite Has.
  destruct (merge_all_appends (merge_start left) news)
    as (by_id & -> & _); [apply merge_start_exact|done|done|].
  cbn [bind merged ids_to_remove merge_start].
  f_equal. apply filter_all. intros x _. apply not_elem_of_empty.
Qed.

(** A message whose id, if it has one, is new is appended. *)
Lemma add_messages_one left oid m :
  (∀ i, oid = Some i → i ∉ ids left) →
  ∃ i, add_messages left [Add oid m] = Ok (left ++ [mkStored i m]).
Proof.
  intros Hnew.
  set (i := match oid with Some i => i | None => uuid4 (ids left) end).
  assert (Hi : i ∉ ids left).
  { unfold i. destruct oid; [by apply Hnew | apply uuid4_fresh]. }
  assert (Has : assign_ids (ids left) [Add oid m] = Put <$> [mkStored i m]).
  { unfold i. by destruct oid. }
  exists i. unfold add_messages. rewrite Has.
  destruct (merge_all_appends (merge_start left) [mkStored i m])
    as (by_id & -> & _).
  - apply merge_start_exact.
  - apply NoDup_singleton.
  - intros j Hj. apply list_elem_of_singleton in Hj. by subst.
  - cbn [bind merged ids_to_remove merge_start].
    f_equal. apply filter_all. intros x _. apply not_elem_of_empty.
Qed.


(** *** The tool invoker *)

Lemma tool_node_answered state calls :
  last_tool_calls state = Ok calls →
  (∀ c, c ∈ calls → answered c) →
  tool_node state
  = Ok (mkUpdate (Some (Add None <$> tool_messages calls))
                 None None None None).
Proof.
  intros Hlast Hall. unfold tool_node. rewrite Hlast. simpl.
  by rewrite invoke_tools_answered.
Qed.

Lemma tool_node_unanswered state calls c :
  last_tool_calls state = Ok calls →
  c ∈ calls → ¬ answered c →
  ∃ e, tool_node state = Raise e.
Proof.
  intros Hlast Hin Hno. unfold tool_node. rewrite Hlast. simpl.
  destruct (invoke_tools_unanswered calls c Hin Hno) as [e ->]. eauto.
Qed.

(** C2 (as amended): when the tool of every request on the latest
    assistant message is in the registry and its invocation returns, the
    invoke-tool step ([tool_node]) appends one tool-result message per
    request, in the order of the requests, each with the call_id of its
    request; when the call_ids are distinct, each request has exactly
    one appended tool-result message with its call_id. A request whose
    tool is not in the registry, or whose invocation raises, makes the
    step raise: nothing is appended. *)
Theorem tool_results_join (thread_id : string) (state : AgentState)
    (calls : list ToolCall) :
  last_tool_calls state = Ok calls →
  ((∀ c, c ∈ calls → answered c) →
   ∃ appended,
     node_step thread_id ToolNode state
     = Ok (mkAgentState (messages state ++ appended)
             (current_user_id state) (current_user_name state)
             (current_session_id state) (current_summary state))
     ∧ msg <$> appended = tool_messages calls
     ∧ (NoDup (tc_id <$> calls) →
        ∀ c, c ∈ calls →
          ∃ m, m ∈ appended
               ∧ msg_tool_call_id (msg m) = Some (tc_id c)
               ∧ ∀ m', m' ∈ appended →
                   msg_tool_call_id (msg m') = Some (tc_id c) → m' = m))
  ∧ (∀ c, c ∈ calls → ¬ answered c →
     ∃ e, node_step thread_id ToolNode state = Raise e).
Proof.
  intros Hlast. split.
  - intros Hall.
    destruct (add_messages_new (messages state) (tool_messages calls))
      as (appended & Hadd & Hmsg & Hnd & _).
    exists appended. repeat split; [|done|].
    + unfold node_step. simpl.
      rewrite (tool_node_answered state calls) by done. simpl.
      by apply apply_update_messages.
    + intros Hids c Hc.
      apply list_elem_of_lookup in Hc as [k Hk].
      assert (Hmk : (msg <$> appended) !! k
                    = Some (ToolMessage (observation_of c) (tc_id c))).
      { rewrite Hmsg. unfold tool_messages.
        by rewrite list_lookup_fmap, Hk. }
      rewrite list_lookup_fmap in Hmk.
      destruct (appended !! k) as [m|] eqn:Hm; [|done].
      injection Hmk as Hmk. exists m. repeat split.
      * by apply list_elem_of_lookup_2 in Hm.
      * by rewrite Hmk.
      * intros m' [k' Hm']%list_elem_of_lookup Hid'.
        assert (Hmk' : (msg <$> appended) !! k' = Some (msg m')).
        { by rewrite list_lookup_fmap, Hm'. }
        rewrite Hmsg in Hmk'. unfold tool_messages in Hmk'.
        rewrite list_lookup_fmap in Hmk'.
        destruct (calls !! k') as [c'|] eqn:Hk'; [|done].
        injection Hmk' as Hmk'. rewrite <- Hmk' in Hid'.
        injection Hid' as Hid'.
        assert (k' = k) as ->.
        { apply (NoDup_lookup _ _ _ (tc_id c) Hids);
            rewrite list_lookup_fmap; [rewrite Hk' | rewrite Hk];
            simpl; congruence. }
        congruence.
  - intros c Hc Hno. unfold node_step. simpl.
    destruct (tool_node_unanswered state calls c Hlast Hc Hno) as [e ->].
    eauto.
Qed.

(** *** The generate step and what follows it *)

Lemma prompt_of_ids l : (prompt_of l).*1 = Some <$> ids l.
Proof.
  unfold prompt_of, ids. rewrite <- !list_fmap_compose.
  by apply list_fmap_ext.
Qed.

Lemma model_id_new state r i :
  qwen3_8b_with_tools (llm_prompt state) = Returned r →
  reply_id r = Some i → i ∉ ids (messages state).
Proof.
  intros Hr Hi Hin.
  apply (model_id_fresh _ _ _ Hr Hi).
  unfold llm_prompt. rewrite fmap_app, prompt_of_ids.
  apply elem_of_app. right. apply list_elem_of_fmap. eauto.
Qed.

Lemma llm_step thread_id state r :
  qwen3_8b_with_tools (llm_prompt state) = Returned r →
  ∃ i, node_step thread_id LlmCall state
       = Ok (mkAgentState
               (messages state
                ++ [mkStored i (AIMessage (reply_content r)
                                          (reply_tool_calls r))])
               (current_user_id state) (current_user_name state)
               (current_session_id state) (current_summary state)).
Proof.
  intros Hr.
  destruct (add_messages_one (messages state) (reply_id r)
              (AIMessage (reply_content r) (reply_tool_calls r)))
    as [i Hadd].
  { intros i Hi. by apply (model_id_new state r). }
  exists i. unfold node_step. simpl. unfold llm_call_node. rewrite Hr.
  simpl. by apply apply_update_messages.
Qed.

(** C9: the route decision runs on the state the generate step was
    merged into, whose message sequence ends with the assistant message
    just appended, so reading the last message and its [tool_calls]
    does not fault; and the invoke-tool step runs only on such a state
    whose last message has a non-empty tool-call list. *)
Theorem route_and_tools_read_assistant_message (thread_id : string) :
  (∀ state r,
     qwen3_8b_with_tools (llm_prompt state) = Returned r →
     ∃ i state',
       node_step thread_id LlmCall state = Ok state'
       ∧ messages state'
         = messages state
           ++ [mkStored i (AIMessage (reply_content r)
                                     (reply_tool_calls r))]
       ∧ should_continue state'
         = Ok (if nonempty (reply_tool_calls r)
               then Goto ToolNode else END)
       ∧ superstep thread_id LlmCall state
         = Ok (mkCheckpoint state'
                 (if nonempty (reply_tool_calls r)
                  then Goto ToolNode else END)))
  ∧ (∀ k cp,
       reachable thread_id k cp → next cp = Goto ToolNode →
       ∃ i content calls,
         last (messages (values cp))
         = Some (mkStored i (AIMessage content calls))
         ∧ calls ≠ []
         ∧ last_tool_calls (values cp) = Ok calls).
Proof.
  split.
  - intros state r Hr.
    destruct (llm_step thread_id state r Hr) as [i Hstep].
    eexists i, _. split; [exact Hstep|]. simpl.
    assert (Hroute : should_continue
      (mkAgentState
         (messages state
          ++ [mkStored i (AIMessage (reply_content r) (reply_tool_calls r))])
         (current_user_id state) (current_user_name state)
         (current_session_id state) (current_summary state))
      = Ok (if nonempty (reply_tool_calls r) then Goto ToolNode else END)).
    { unfold should_continue, last_tool_calls. simpl.
      rewrite last_snoc. simpl. by destruct (reply_tool_calls r). }
    repeat split; [done|].
    unfold superstep. rewrite Hstep. simpl. by rewrite Hroute.
  - intros k cp Hreach Hnext.
    destruct Hreach as [state|k cp0 n cp Hreach Hn Hstep]; [done|].
    apply superstep_Ok in Hstep as [_ Hedge]. rewrite Hnext in Hedge.
    destruct n; simpl in Hedge; try done.
    by apply should_continue_tool_node.
Qed.

End FreshIds.

(** *** The checkpointer and resumption *)

Lemma get_latest_put store thread_id cp :
  get_latest (put store thread_id cp) thread_id = Some cp.
Proof. unfold get_latest, put. by rewrite lookup_insert_eq. Qed.

Lemma get_latest_put_ne store thread_id thread_id' cp :
  thread_id ≠ thread_id' →
  get_latest (put store thread_id cp) thread_id'
  = get_latest store thread_id'.
Proof. intros Hne. unfold get_latest, put. by rewrite lookup_insert_ne. Qed.

(** The loop saves what it holds: when it stops, the last checkpoint of
    the thread is the one it had in memory. *)
Lemma run_persists fuel thread_id cp store :
  get_latest store thread_id = Some cp →
  get_latest (run fuel thread_id cp store).1 thread_id
  = Some (in_memory fuel thread_id cp).
Proof.
  revert cp store. induction fuel as [|fuel IH]; intros cp store Hcp; simpl.
  - by destruct (next cp).
  - destruct (next cp) as [n|]; [|done].
    destruct (superstep thread_id n (values cp)) as [cp'|e]; [|done].
    apply IH, get_latest_put.
Qed.

(** Other threads' checkpoints are not touched. *)
Lemma run_other_thread fuel thread_id thread_id' cp store :
  thread_id ≠ thread_id' →
  (run fuel thread_id cp store).1 !! thread_id' = store !! thread_id'.
Proof.
  intros Hne. revert cp store.
  induction fuel as [|fuel IH]; intros cp store; simpl.
  - by destruct (next cp).
  - destruct (next cp) as [n|]; [|done].
    destruct (superstep thread_id n (values cp)) as [cp'|e]; [|done].
    rewrite IH. unfold put. by rewrite lookup_insert_ne.
Qed.

(** A loop stopped after [killed_after] steps and restarted from the
    store goes on as the loop that was never stopped. *)
Lemma run_resume killed_after more thread_id cp store :
  get_latest store thread_id = Some cp →
  resume (S more) thread_id (run killed_after thread_id cp store).1
  = run (killed_after + S more) thread_id cp store.
Proof.
  revert cp store.
  induction killed_after as [|k IH]; intros cp store Hcp.
  - assert (Hstop : (run 0 thread_id cp store).1 = store).
    { simpl. by destruct (next cp). }
    rewrite Hstop. unfold resume. by rewrite Hcp.
  - cbn [run Nat.add]. destruct (next cp) as [n|] eqn:Hnext.
    + destruct (superstep thread_id n (values cp)) as [cp'|e] eqn:Hstep.
      * apply IH, get_latest_put.
      * unfold resume. cbn [fst]. rewrite Hcp. cbn [run].
        by rewrite Hnext, Hstep.
    + unfold resume. cbn [fst]. rewrite Hcp. cbn [run]. by rewrite Hnext.
Qed.

Lemma begin_turn_human thread_id message store :
  ∃ cp, begin_turn thread_id (human_input message) store = Ok cp
        ∧ next cp = Goto RuntimeLoad.
Proof.
  unfold begin_turn, apply_update, human_input. simpl.
  set (state := match get_latest store thread_id with
                | Some cp => values cp
                | None => empty_state
                end).
  destruct (add_messages_adds (messages state) [(None, HumanMessage message)])
    as [res Hres].
  simpl in Hres. rewrite Hres. simpl. eauto.
Qed.

(** C1 (as amended): when the models, the tools and the generator of
    message ids are fixed deterministic functions, the same for the killed,
    the restarted and the uninterrupted engine, a turn whose engine is
    killed after any number of steps and restarted from the checkpoint
    store ends with the same store and the same result as the turn that
    ran without interruption: when the engine stops, the state it held is
    the thread's last saved checkpoint, and the restarted engine goes on
    from it without running a merged step again. *)
Theorem resume_after_kill (killed_after more : nat) (thread_id : string)
    (message : string) (store : gmap string (list Checkpoint)) :
  resume (S more) thread_id
    (invoke killed_after thread_id (human_input message) store).1
  = invoke (killed_after + S more) thread_id (human_input message) store
  ∧ ∃ cp, begin_turn thread_id (human_input message) store = Ok cp
          ∧ get_latest
              (invoke killed_after thread_id (human_input message) store).1
              thread_id
            = Some (in_memory killed_after thread_id cp).
Proof.
  destruct (begin_turn_human thread_id message store) as (cp & Hcp & _).
  unfold invoke. rewrite Hcp. split.
  - apply run_resume, get_latest_put.
  - exists cp. split; [done|]. apply run_persists, get_latest_put.
Qed.

(** Every checkpoint the loop saves is one of a turn. *)
Lemma run_saves_reachable fuel thread_id k cp store c :
  reachable thread_id k cp →
  c ∈ default [] ((run fuel thread_id cp store).1 !! thread_id) →
  c ∈ default [] (store !! thread_id) ∨ ∃ j, reachable thread_id j c.
Proof.
  revert k cp store.
  induction fuel as [|fuel IH]; intros k cp store Hreach; simpl.
  - destruct (next cp); auto.
  - destruct (next cp) as [n|] eqn:Hnext; [|auto].
    destruct (superstep thread_id n (values cp)) as [cp'|e] eqn:Hstep;
      [|auto].
    assert (Hreach' : reachable thread_id (S k) cp').
    { by apply (reachable_step thread_id k cp n cp'). }
    intros Hc. apply (IH _ _ _ Hreach') in Hc as [Hc|Hc]; [|auto].
    unfold put in Hc. rewrite lookup_insert_eq in Hc. simpl in Hc.
    apply elem_of_cons in Hc as [->|Hc]; eauto.
Qed.

(** Saved states keep distinct ids: a step preserves them, and so does a
    turn on every thread of the store. *)
Lemma apply_update_NoDup s u s' :
  NoDup (ids (messages s)) → apply_update s u = Ok s' →
  NoDup (ids (messages s')).
Proof.
  intros Hnd. unfold apply_update. intros (ms & Hms & [= <-])%bind_Ok. simpl.
  destruct (upd_messages u) as [entries|].
  - by apply (add_messages_NoDup (messages s) entries).
  - by injection Hms as <-.
Qed.

Lemma superstep_distinct thread_id n state cp :
  NoDup (ids (messages state)) → superstep thread_id n state = Ok cp →
  distinct_ids cp.
Proof.
  intros Hnd [Hnode _]%superstep_Ok. unfold node_step in Hnode.
  apply bind_Ok in Hnode as (upd & _ & Happly).
  by apply (apply_update_NoDup state upd).
Qed.

Lemma run_distinct fuel thread_id cp store c :
  distinct_ids cp →
  (∀ c, c ∈ default [] (store !! thread_id) → distinct_ids c) →
  c ∈ default [] ((run fuel thread_id cp store).1 !! thread_id) →
  distinct_ids c.
Proof.
  revert cp store. induction fuel as [|fuel IH]; intros cp store Hcp Hstore;
    simpl.
  - destruct (next cp); apply Hstore.
  - destruct (next cp) as [n|]; [|apply Hstore].
    destruct (superstep thread_id n (values cp)) as [cp'|e] eqn:Hstep;
      [|apply Hstore].
    assert (Hcp' : distinct_ids cp').
    { by apply (superstep_distinct thread_id n (values cp)). }
    apply IH; [done|].
    intros c'. unfold put. rewrite lookup_insert_eq. simpl.
    intros [->|Hc']%elem_of_cons; [done|by apply Hstore].
Qed.

Lemma invoke_distinct fuel thread_id input store thread_id' c :
  (∀ t c, c ∈ default [] (store !! t) → distinct_ids c) →
  c ∈ default [] ((invoke fuel thread_id input store).1 !! thread_id') →
  distinct_ids c.
Proof.
  intros Hstore. unfold invoke.
  destruct (begin_turn thread_id input store) as [cp|e] eqn:Hbegin;
    [|apply Hstore].
  assert (Hcp : distinct_ids cp).
  { unfold begin_turn in Hbegin.
    apply bind_Ok in Hbegin as (state' & Happly & [= <-]).
    apply (apply_update_NoDup _ _ _) in Happly; [done|].
    unfold get_latest.
    destruct (store !! thread_id) as [[|c0 l]|] eqn:Hl; simpl;
      try apply NoDup_nil_2.
    apply (Hstore thread_id c0). rewrite Hl. by left. }
  destruct (decide (thread_id = thread_id')) as [<-|Hne].
  - apply run_distinct; [done|].
    intros c'. unfold put. rewrite lookup_insert_eq. simpl.
    intros [->|Hc']%elem_of_cons; [done|by apply (Hstore thread_id)].
  - rewrite run_other_thread by done. unfold put.
    rewrite lookup_insert_ne by done. apply Hstore.
Qed.

(** *** The entry point *)

(** C8 (as amended): a turn whose user or session component is missing
    or empty, or whose incoming message is empty, is rejected by [chat]
    with an error answer before any step of the engine runs: no turn is
    started and the checkpoint store is as it was. *)
Theorem chat_rejects_empty (fuel : nat) (x_user x_sess : option string)
    (message : string) (store : gmap string (list Checkpoint)) :
  header_missing x_user = true ∨ header_missing x_sess = true
  ∨ message = "" →
  (∃ error, chat x_user x_sess message = JSONResponse (-1) error)
  ∧ stream_chat fuel x_user x_sess message store = (store, None).
Proof.
  intros Hbad.
  assert (Hrej : ∃ error, chat x_user x_sess message = JSONResponse (-1) error).
  { unfold chat. destruct Hbad as [Hu|[Hs| ->]].
    - rewrite Hu. simpl. eauto.
    - rewrite Hs, orb_true_r. eauto.
    - destruct (header_missing x_user || header_missing x_sess); simpl; eauto. }
  split; [done|]. unfold stream_chat. by destruct Hrej as [error ->].
Qed.

Lemma chat_accepts user sess message :
  truthy user = true → truthy sess = true → truthy message = true →
  chat (Some user) (Some sess) message
  = EventSourceResponse (thread_id_of user sess) (human_input message).
Proof.
  intros Hu Hs Hm. unfold chat. simpl. by rewrite Hu, Hs, Hm.
Qed.
(** *** More on the nodes *)

Lemma NoDup_ids_eq (l : list Stored) (x y : Stored) :
  NoDup (ids l) → x ∈ l → y ∈ l → msg_id x = msg_id y → x = y.
Proof.
  intros Hnd [i Hi]%list_elem_of_lookup [j Hj]%list_elem_of_lookup Heq.
  assert (i = j) as ->.
  { apply (NoDup_lookup _ _ _ (msg_id x) Hnd); unfold ids;
      rewrite list_lookup_fmap; [rewrite Hi | rewrite Hj]; simpl; congruence. }
  congruence.
Qed.

Lemma pruned_distinct (l : list Stored) :
  NoDup (ids l) →
  pruned l = filter (λ m, is_tool_artifact (msg m) = false) l.
Proof.
  intros Hnd. unfold pruned. apply filter_ext_elem. intros m Hm. split.
  - intros Hid. destruct (is_tool_artifact (msg m)) eqn:Hart; [|done].
    destruct Hid. unfold ids. apply list_elem_of_fmap. exists m.
    split; [done|]. by apply list_elem_of_filter.
  - intros Hart Hid. unfold ids in Hid.
    apply list_elem_of_fmap in Hid as (m' & Heq & Hm').
    apply list_elem_of_filter in Hm' as [Hart' Hm'].
    assert (m = m') as <- by by apply (NoDup_ids_eq l).
    congruence.
Qed.

(** X6: the prune step never raises and touches nothing but the messages:
    every message it leaves was there and is no tool artifact, and when the
    stored ids are distinct it leaves exactly the messages that are not
    tool artifacts, in their order. *)
Theorem prune_keeps_the_rest (thread_id : string) (state : AgentState) :
  ∃ state',
    node_step thread_id DeleteToolMessage state = Ok state'
    ∧ current_user_id state' = current_user_id state
    ∧ current_user_name state' = current_user_name state
    ∧ current_session_id state' = current_session_id state
    ∧ current_summary state' = current_summary state
    ∧ (∀ m, m ∈ messages state' →
         m ∈ messages state ∧ ¬ tool_artifact (msg m))
    ∧ (NoDup (ids (messages state)) →
       messages state'
       = filter (λ m, is_tool_artifact (msg m) = false) (messages state)).
Proof.
  eexists. split; [apply prune_step|]. simpl.
  split; [done|]. split; [done|]. split; [done|]. split; [done|]. split.
  - intros m Hm. split.
    + unfold pruned in Hm. by apply list_elem_of_filter in Hm as [_ ?].
    + rewrite <- is_tool_artifact_spec.
      by rewrite (pruned_no_artifact (messages state) m).
  - apply pruned_distinct.
Qed.

(** X7: over the budget, a history of at most two messages is not
    shortened: the compaction replaces the summary and removes no message,
    so the messages stay over the budget. *)
Theorem compaction_keeps_short_history (thread_id : string)
    (state : AgentState) (response : AIReply) :
  128000 ≤ count_tokens_approximately (messages state) →
  qwen3_8b (prompt_of (messages state)
            ++ [(None, HumanMessage (summary_message state))])
  = Returned response →
  (length (messages state) ≤ 2)%nat →
  ∃ state',
    node_step thread_id SummarizeConversation state = Ok state'
    ∧ messages state' = messages state
    ∧ current_summary state' = Some (reply_content response)
    ∧ 128000 ≤ count_tokens_approximately (messages state').
Proof.
  intros Hhigh Hmodel Hshort.
  destruct (summarize_above thread_id state response Hhigh Hmodel)
    as [Hnode _].
  assert (Hnone : all_but_last_two (messages state) = []).
  { unfold all_but_last_two.
    replace (length (messages state) - 2)%nat with 0%nat by lia.
    apply take_0. }
  rewrite Hnone in Hnode.
  exists (mkAgentState (messages state) (current_user_id state)
            (current_user_name state) (current_session_id state)
            (Some (reply_content response))).
  split; [|done].
  unfold node_step. simpl. rewrite Hnode. simpl.
  unfold apply_update. simpl. do 2 f_equal.
  apply filter_all. intros m _. apply not_elem_of_empty.
Qed.

Lemma failure_of_None c : failure_of c = None ↔ answered c.
Proof.
  unfold failure_of, answered. case_bool_decide as Hreg.
  - destruct (tool_ainvoke (tc_name c) (tc_args c)) as [obs|why] eqn:Hobs.
    + split; [eauto|done].
    + split; [done|]. by intros [_ [obs ?]].
  - split; [done|]. by intros [? _].
Qed.

Lemma invoke_tools_first_failure done bad rest e :
  (∀ c, c ∈ done → answered c) → failure_of bad = Some e →
  invoke_tools (done ++ bad :: rest) = Raise e.
Proof.
  intros Hdone Hbad. induction done as [|c done IH]; simpl.
  - unfold failure_of in Hbad. rewrite tool_map_lookup.
    case_bool_decide; [|by injection Hbad as <-].
    destruct (tool_ainvoke (tc_name bad) (tc_args bad)); [done|].
    by injection Hbad as <-.
  - destruct (Hdone c) as [Hreg [obs Hobs]]; [by left|].
    rewrite tool_map_lookup, bool_decide_eq_true_2, Hobs by done.
    rewrite IH by (intros c' Hc'; apply Hdone; by right). done.
Qed.

Lemma invoke_tools_Raise calls e :
  invoke_tools calls = Raise e → ∃ c, c ∈ calls ∧ failure_of c = Some e.
Proof.
  induction calls as [|c calls IH]; simpl; [done|].
  rewrite tool_map_lookup. unfold failure_of at 1.
  case_bool_decide as Hreg.
  - destruct (tool_ainvoke (tc_name c) (tc_args c)) as [obs|why] eqn:Hobs.
    + destruct (invoke_tools calls) as [res|e'] eqn:Hrest; [done|].
      simpl. intros [= ->]. destruct (IH eq_refl) as (c' & Hc' & Hf).
      exists c'. split; [by right|done].
    + intros [= <-]. exists c. split; [by left|].
      unfold failure_of. by rewrite bool_decide_eq_true_2, Hobs.
  - intros [= <-]. exists c. split; [by left|].
    unfold failure_of. by rewrite bool_decide_eq_false_2.
Qed.

(** X8: the invoke-tool step stops at the first request that fails: when
    the requests before it are answered, the step raises the exception of
    that request ([KeyError] with the tool's name when the registry does
    not hold it, else what the tool raised), whatever the requests after
    it are, and nothing is merged. *)
Theorem tool_node_first_failure (thread_id : string) (state : AgentState)
    (done : list ToolCall) (bad : ToolCall) (rest : list ToolCall)
    (e : exn) :
  last_tool_calls state = Ok (done ++ bad :: rest) →
  (∀ c, c ∈ done → answered c) →
  failure_of bad = Some e →
  tool_node state = Raise e
  ∧ node_step thread_id ToolNode state = Raise e
  ∧ (e = KeyError (tc_name bad)
     ∨ ∃ why, tool_ainvoke (tc_name bad) (tc_args bad) = Failed why
              ∧ e = ToolException why).
Proof.
  intros Hlast Hdone Hbad.
  assert (Hnode : tool_node state = Raise e).
  { unfold tool_node. rewrite Hlast. simpl.
    by rewrite (invoke_tools_first_failure done bad rest e). }
  split; [done|]. split.
  - unfold node_step. simpl. by rewrite Hnode.
  - unfold failure_of in Hbad. case_bool_decide.
    + destruct (tool_ainvoke (tc_name bad) (tc_args bad)) as [|why];
        [done|]. injection Hbad as <-. right. by exists why.
    + injection Hbad as <-. by left.
Qed.

(** X9: the router and the invoke-tool step read
    [state["messages"][-1].tool_calls]: both raise [IndexError] on an empty
    message sequence and [AttributeError] when the last message is not an
    assistant message, and the router returns a decision exactly when the
    last message is an assistant message. *)
Theorem last_message_faults (state : AgentState) :
  (messages state = [] →
   should_continue state = Raise IndexError
   ∧ tool_node state = Raise IndexError)
  ∧ (∀ m, last (messages state) = Some m → msg_tool_calls (msg m) = None →
       should_continue state = Raise AttributeError
       ∧ tool_node state = Raise AttributeError)
  ∧ ((∃ target, should_continue state = Ok target)
     ↔ ∃ i content calls,
         last (messages state) = Some (mkStored i (AIMessage content calls))).
Proof.
  unfold should_continue, tool_node, last_tool_calls.
  split; [|split; [|split]].
  - intros Hnil. by rewrite Hnil.
  - intros m Hlast Hnone. by rewrite Hlast, Hnone.
  - intros [target Hok].
    destruct (last (messages state)) as [[i m]|]; [|done].
    destruct m as [c|c calls|c j|c]; try done. by exists i, c, calls.
  - intros (i & content & calls & ->). simpl.
    destruct (nonempty calls); eauto.
Qed.

(** *** More on the turn *)

Lemma should_continue_end state :
  should_continue state = Ok END →
  ∃ i content,
    last (messages state) = Some (mkStored i (AIMessage content [])).
Proof.
  unfold should_continue, last_tool_calls.
  destruct (last (messages state)) as [[i m]|]; [|done].
  destruct m as [c|c calls|c j|c]; simpl; try done.
  destruct calls as [|call calls]; simpl; [|done]. intros _.
  by exists i, c.
Qed.

Lemma turn_parity thread_id k cp :
  reachable thread_id k cp → (3 ≤ k)%nat →
  if Nat.odd k then next cp = Goto LlmCall
  else next cp = Goto ToolNode ∨ next cp = END.
Proof.
  induction 1 as [state|k cp n cp' Hreach IH Hnext Hstep]; [lia|].
  intros Hk. apply superstep_Ok in Hstep as [_ Hedge].
  destruct (decide (k = 2%nat)) as [->|Hne].
  - apply turn_shape_reachable in Hreach as [Hn _].
    rewrite Hn in Hnext. injection Hnext as <-. by injection Hedge as <-.
  - specialize (IH ltac:(lia)). rewrite Nat.odd_succ, <- Nat.negb_odd.
    destruct (Nat.odd k); simpl.
    + rewrite IH in Hnext. injection Hnext as <-. simpl in Hedge.
      unfold should_continue in Hedge.
      apply bind_Ok in Hedge as (calls & _ & Hedge).
      destruct (nonempty calls); injection Hedge as <-; auto.
    + destruct IH as [IH|IH]; rewrite IH in Hnext; [|done].
      injection Hnext as <-. by injection Hedge as <-.
Qed.

(** X10: after its three opening steps a turn alternates: the generate
    step is next after an odd number of steps, and after an even number of
    steps the invoke-tool step or the end is; so a tool step is always
    followed by a generate step, and a turn ends only right after a
    generate step, after an even number of steps that is at least four. *)
Theorem turn_alternates (thread_id : string) (k : nat) (cp : Checkpoint) :
  reachable thread_id k cp →
  ((3 ≤ k)%nat → Nat.odd k = true → next cp = Goto LlmCall)
  ∧ ((3 ≤ k)%nat → Nat.odd k = false →
     next cp = Goto ToolNode ∨ next cp = END)
  ∧ (next cp = END → (4 ≤ k)%nat ∧ Nat.even k = true)
  ∧ (next cp = Goto ToolNode → (4 ≤ k)%nat ∧ Nat.even k = true).
Proof.
  intros Hreach.
  pose proof (turn_parity thread_id k cp Hreach) as Hpar.
  pose proof (turn_shape_reachable thread_id k cp Hreach) as Hshape.
  assert (Hlate : next cp = END ∨ next cp = Goto ToolNode →
                  (4 ≤ k)%nat ∧ Nat.even k = true).
  { intros Hn. destruct k as [|[|[|k]]]; simpl in Hshape.
    - destruct Hn as [Hn|Hn]; by rewrite Hshape in Hn.
    - destruct Hshape as [Hs _]. destruct Hn as [Hn|Hn]; by rewrite Hs in Hn.
    - destruct Hshape as [Hs _]. destruct Hn as [Hn|Hn]; by rewrite Hs in Hn.
    - specialize (Hpar ltac:(lia)). rewrite <- Nat.negb_odd.
      destruct (Nat.odd (S (S (S k)))) eqn:Hodd.
      + destruct Hn as [Hn|Hn]; by rewrite Hpar in Hn.
      + split; [|done]. destruct k; [done|lia]. }
  repeat split.
  - intros Hk Hodd. specialize (Hpar Hk). by rewrite Hodd in Hpar.
  - intros Hk Hodd. specialize (Hpar Hk). by rewrite Hodd in Hpar.
  - apply Hlate. by left.
  - apply Hlate. by left.
  - apply Hlate. by right.
  - apply Hlate. by right.
Qed.

Lemma reachable_end thread_id k cp :
  reachable thread_id k cp → next cp = END →
  ∃ i content,
    last (messages (values cp)) = Some (mkStored i (AIMessage content [])).
Proof.
  intros Hreach Hnext.
  destruct Hreach as [state|k cp0 n cp Hreach Hn Hstep]; [done|].
  apply superstep_Ok in Hstep as [_ Hedge]. rewrite Hnext in Hedge.
  destruct n; simpl in Hedge; try done. by apply should_continue_end.
Qed.

(** The loop that ends a turn stops on a checkpoint of the turn whose
    next is the end and that is the thread's last saved one. *)
Lemma run_done fuel thread_id k cp store store' final :
  reachable thread_id k cp →
  get_latest store thread_id = Some cp →
  run fuel thread_id cp store = (store', Done final) →
  ∃ j cp', (k ≤ j ≤ k + fuel)%nat ∧ reachable thread_id j cp'
           ∧ next cp' = END ∧ values cp' = final
           ∧ get_latest store' thread_id = Some cp'.
Proof.
  revert k cp store. induction fuel as [|fuel IH]; intros k cp store Hreach
    Hcp; simpl.
  - destruct (next cp) eqn:Hnext; [done|]. intros [= <- <-].
    exists k, cp. repeat split; try done; lia.
  - destruct (next cp) as [n|] eqn:Hnext.
    + destruct (superstep thread_id n (values cp)) as [cp1|e] eqn:Hstep;
        [|done].
      intros Hrun. apply (IH (S k)) in Hrun
        as (j & cp' & Hj & Hreach' & Hend & Hfinal & Hlatest).
      * exists j, cp'. repeat split; try done; lia.
      * by apply (reachable_step thread_id k cp n cp1).
      * apply get_latest_put.
    + intros [= <- <-]. exists k, cp. repeat split; try done; lia.
Qed.

Lemma begin_turn_start thread_id input store cp :
  begin_turn thread_id input store = Ok cp → reachable thread_id 0 cp.
Proof.
  unfold begin_turn. intros (state' & _ & [= <-])%bind_Ok. constructor.
Qed.

Lemma invoke_done fuel thread_id input store store' final :
  invoke fuel thread_id input store = (store', Done final) →
  ∃ j cp', (j ≤ fuel)%nat ∧ reachable thread_id j cp'
           ∧ next cp' = END ∧ values cp' = final
           ∧ get_latest store' thread_id = Some cp'.
Proof.
  unfold invoke.
  destruct (begin_turn thread_id input store) as [cp|e] eqn:Hbegin; [|done].
  intros (j & cp' & Hj & Hrest)%(run_done _ _ 0%nat).
  - exists j, cp'. split; [lia|done].
  - by apply (begin_turn_start thread_id input store).
  - apply get_latest_put.
Qed.

(** X11: a turn that ends has run at least four steps, and the state it
    ends with, which is the thread's last saved state, has an assistant
    message without tool calls as its last message. *)
Theorem turn_ends_with_final_answer (fuel : nat) (thread_id : string)
    (input : Update) (store store' : gmap string (list Checkpoint))
    (final : AgentState) :
  invoke fuel thread_id input store = (store', Done final) →
  (4 ≤ fuel)%nat
  ∧ (∃ i content,
       last (messages final) = Some (mkStored i (AIMessage content [])))
  ∧ ∃ cp, get_latest store' thread_id = Some cp ∧ values cp = final
          ∧ next cp = END.
Proof.
  intros (j & cp' & Hj & Hreach & Hend & Hfinal & Hlatest)%invoke_done.
  pose proof (turn_shape_reachable thread_id j cp' Hreach) as Hshape.
  pose proof (turn_parity thread_id j cp' Hreach) as Hpar.
  split; [|split].
  - destruct j as [|[|[|[|j]]]]; simpl in Hshape; try lia.
    + by rewrite Hshape in Hend.
    + destruct Hshape as [Hs _]. by rewrite Hs in Hend.
    + destruct Hshape as [Hs _]. by rewrite Hs in Hend.
    + specialize (Hpar ltac:(lia)). simpl in Hpar. by rewrite Hpar in Hend.
  - rewrite <- Hfinal. by apply (reachable_end thread_id j).
  - by exists cp'.
Qed.

(** X12: after a turn that [chat] started has ended, the history endpoint
    answers for the same headers with the role and the content of each
    message of the turn's final state, and the last of them is an
    assistant message. *)
Theorem history_after_turn (fuel : nat) (x_user x_sess : option string)
    (message : string) (store store' : gmap string (list Checkpoint))
    (final : AgentState) :
  stream_chat fuel x_user x_sess message store = (store', Some (Done final)) →
  list_history_message x_user x_sess store'
  = HistoryMessages
      ((λ m, (msg_type (msg m), msg_content (msg m))) <$> messages final)
  ∧ ∃ content,
      last ((λ m, (msg_type (msg m), msg_content (msg m))) <$> messages final)
      = Some ("ai", content).
Proof.
  unfold stream_chat.
  destruct (chat x_user x_sess message) as [code err|thread_id input]
    eqn:Hchat; [done|].
  destruct (invoke fuel thread_id input store) as [st status] eqn:Hinv.
  simpl. intros [= -> ->].
  apply invoke_done in Hinv
    as (j & cp & _ & Hreach & Hend & Hvalues & Hlatest).
  destruct (reachable_end thread_id j cp Hreach Hend)
    as (i & content & Hlast).
  rewrite Hvalues in Hlast.
  unfold chat in Hchat.
  destruct (header_missing x_user || header_missing x_sess) eqn:Hmiss;
    [done|].
  destruct (negb (truthy message)); [done|]. injection Hchat as <- _.
  split.
  - unfold list_history_message. by rewrite Hmiss, Hlatest, Hvalues.
  - exists content. by rewrite fmap_last, Hlast.
Qed.

(** *** The exceptions of a turn *)

Lemma runtime_load_Raise thread_id state e :
  runtime_load_node thread_id state = Raise e →
  e = IndexError ∧ contains delimiter thread_id = false.
Proof.
  unfold runtime_load_node. intros Hload.
  destruct (contains delimiter thread_id) eqn:Hc.
  - apply split_two in Hc as (a & b & rest & Hs). by rewrite Hs in Hload.
  - apply split_no_sep in Hc. rewrite Hc in Hload. simpl in Hload.
    by injection Hload as <-.
Qed.

Lemma load_step_Raise thread_id state e :
  node_step thread_id RuntimeLoad state = Raise e →
  e = IndexError ∧ contains delimiter thread_id = false.
Proof.
  unfold node_step. simpl.
  destruct (runtime_load_node thread_id state) as [upd|e'] eqn:Hload.
  - unfold runtime_load_node in Hload.
    apply bind_Ok in Hload as (u0 & _ & Hload).
    by apply bind_Ok in Hload as (u1 & _ & [= <-]).
  - simpl. intros [= <-]. by apply (runtime_load_Raise thread_id state).
Qed.

Lemma summarize_step_Raise thread_id state e :
  node_step thread_id SummarizeConversation state = Raise e →
  ∃ why, e = ModelError why.
Proof.
  unfold node_step. simpl. unfold summarize_conversation_node.
  case_bool_decide; [simpl; by rewrite apply_update_no_update|].
  destruct (qwen3_8b _) as [response|why]; simpl.
  - unfold apply_update. simpl.
    rewrite removals_of_ids, add_messages_removals by apply ids_take_subset.
    done.
  - intros [= <-]. by exists why.
Qed.

Lemma invoke_tools_adds calls res :
  invoke_tools calls = Ok res →
  ∃ l : list (option string * Message), res = (λ p, Add p.1 p.2) <$> l.
Proof.
  revert res. induction calls as [|c calls IH]; intros res; simpl.
  - intros [= <-]. by exists [].
  - destruct (tool_map !! tc_name c) as [tool|]; [|done].
    destruct (tool (tc_args c)) as [obs|why]; [|done].
    intros (rest & Hrest & [= <-])%bind_Ok.
    destruct (IH rest Hrest) as [l ->].
    by exists ((None, ToolMessage obs (tc_id c)) :: l).
Qed.

Lemma tool_step_Raise thread_id state calls e :
  last_tool_calls state = Ok calls →
  superstep thread_id ToolNode state = Raise e →
  ∃ c, c ∈ calls ∧ failure_of c = Some e.
Proof.
  intros Hlast. unfold superstep, node_step. simpl. unfold tool_node.
  rewrite Hlast. simpl.
  destruct (invoke_tools calls) as [res|e'] eqn:Hres; simpl.
  - destruct (invoke_tools_adds calls res Hres) as [l ->].
    unfold apply_update. simpl.
    by destruct (add_messages_adds (messages state) l) as [ms ->].
  - intros [= <-]. by apply invoke_tools_Raise.
Qed.

Lemma reachable_tool_node thread_id k cp :
  reachable thread_id k cp → next cp = Goto ToolNode →
  ∃ calls, last_tool_calls (values cp) = Ok calls ∧ calls ≠ [].
Proof.
  intros Hreach Hnext.
  destruct Hreach as [state|k cp0 n cp Hreach Hn Hstep]; [done|].
  apply superstep_Ok in Hstep as [_ Hedge]. rewrite Hnext in Hedge.
  destruct n; simpl in Hedge; try done.
  apply should_continue_tool_node in Hedge as (i & c & calls & _ & ? & ?).
  by exists calls.
Qed.

Section UniqueIds.

(** Message identity is unique within a thread: a generated id is new, and
    so is the id of a model's answer. *)
Hypothesis uuid4_new : ∀ used, uuid4 used ∉ used.
Hypothesis model_id_new_in_thread : ∀ prompt r i,
  qwen3_8b_with_tools prompt = Returned r →
  reply_id r = Some i → Some i ∉ prompt.*1.

Lemma llm_superstep_Raise thread_id state e :
  superstep thread_id LlmCall state = Raise e → ∃ why, e = ModelError why.
Proof.
  destruct (qwen3_8b_with_tools (llm_prompt state)) as [r|why] eqn:Hr.
  - destruct (llm_step uuid4_new model_id_new_in_thread thread_id state r Hr)
      as [i Hstep].
    unfold superstep. rewrite Hstep. simpl.
    unfold should_continue, last_tool_calls. simpl. rewrite last_snoc. simpl.
    by destruct (reply_tool_calls r).
  - unfold superstep, node_step. simpl. unfold llm_call_node. rewrite Hr.
    simpl. intros [= <-]. by exists why.
Qed.

(** X13: with unique message ids, a step of a turn can only raise what
    its collaborators raise: the load-identity step [IndexError], and only
    for a thread identifier without '-'; the compaction and the generate
    step the error of their model; the invoke-tool step [KeyError] for a
    tool name that the registry does not hold, or the exception of a tool;
    the prune step nothing. No step of a turn raises [AttributeError] or the
    reducer's [ValueError]. *)
Theorem turn_errors (thread_id : string) (k : nat) (cp : Checkpoint)
    (n : Node) (e : exn) :
  reachable thread_id k cp → next cp = Goto n →
  superstep thread_id n (values cp) = Raise e →
  step_failure thread_id n e
  ∧ e ≠ AttributeError ∧ ∀ msg, e ≠ ValueError msg.
Proof.
  intros Hreach Hnext Hstep.
  assert (Hfail : step_failure thread_id n e).
  { destruct n; simpl.
    - unfold superstep in Hstep.
      destruct (node_step thread_id RuntimeLoad (values cp)) as [s'|e']
        eqn:Hnode; [done|].
      simpl in Hstep. injection Hstep as <-.
      by apply (load_step_Raise thread_id (values cp)).
    - unfold superstep in Hstep. by rewrite prune_step in Hstep.
    - unfold superstep in Hstep.
      destruct (node_step thread_id SummarizeConversation (values cp))
        as [s'|e'] eqn:Hnode; [done|].
      simpl in Hstep. injection Hstep as <-.
      by apply (summarize_step_Raise thread_id (values cp)).
    - by apply (llm_superstep_Raise thread_id (values cp)).
    - destruct (reachable_tool_node thread_id k cp Hreach Hnext)
        as (calls & Hlast & _).
      destruct (tool_step_Raise thread_id (values cp) calls e Hlast Hstep)
        as (c & _ & Hc).
      unfold failure_of in Hc. case_bool_decide as Hreg.
      + destruct (tool_ainvoke (tc_name c) (tc_args c)) as [|why]; [done|].
        injection Hc as <-. right. by exists why.
      + injection Hc as <-. left. by exists (tc_name c). }
  split; [done|].
  destruct n; simpl in Hfail.
  - destruct Hfail as [-> _]. by split.
  - done.
  - destruct Hfail as [why ->]. by split.
  - destruct Hfail as [why ->]. by split.
  - destruct Hfail as [(name & -> & _)|[why ->]]; by split.
Qed.

End UniqueIds.

(** X5: [chat] starts a turn exactly when both headers and the message are
    present and non-empty, whatever characters they hold; the turn is then
    that of the thread "user-session" on the message as a user message. *)
Theorem chat_accepts_iff (x_user x_sess : option string) (message : string)
    (thread_id : string) (input : Update) :
  chat x_user x_sess message = EventSourceResponse thread_id input
  ↔ ∃ user sess,
      x_user = Some user ∧ x_sess = Some sess
      ∧ truthy user = true ∧ truthy sess = true ∧ truthy message = true
      ∧ thread_id = thread_id_of user sess ∧ input = human_input message.
Proof.
  split.
  - unfold chat.
    destruct x_user as [user|], x_sess as [sess|]; simpl; try done.
    + destruct (truthy user) eqn:Hu, (truthy sess) eqn:Hs,
        (truthy message) eqn:Hm; simpl; try done.
      intros [= <- <-]. by exists user, sess.
    + by destruct (truthy user).
  - intros (user & sess & -> & -> & Hu & Hs & Hm & -> & ->).
    by apply chat_accepts.
Qed.

End Graph.

(** ** The session endpoints *)

Lemma same_key_true user sess d :
  same_key user sess d = true
  ↔ (sess_user_id d, sess_session_id d) = (user, sess).
Proof.
  unfold same_key. rewrite andb_true_iff, !bool_decide_eq_true.
  split; [by intros [-> ->]|by intros [= -> ->]].
Qed.

Lemma same_key_other user sess d :
  sess_user_id d ≠ user → same_key user sess d = false.
Proof.
  intros Hne. unfold same_key. by rewrite bool_decide_eq_false_2.
Qed.

Lemma find_user_cons user d coll :
  find_user user (d :: coll)
  = if bool_decide (sess_user_id d = user)
    then d :: find_user user coll else find_user user coll.
Proof.
  unfold find_user. case_bool_decide.
  - by rewrite filter_cons_True.
  - by rewrite filter_cons_False.
Qed.

Lemma update_one_keys user sess name coll :
  (λ d, (sess_user_id d, sess_session_id d)) <$> update_one user sess name coll
  = (λ d, (sess_user_id d, sess_session_id d)) <$> coll.
Proof.
  induction coll as [|d coll IH]; simpl; [done|].
  destruct (same_key user sess d); csimpl; [done|by rewrite IH].
Qed.

Lemma update_one_absent user sess name coll :
  (∀ d, d ∈ coll → same_key user sess d = false) →
  update_one user sess name coll = coll.
Proof.
  induction coll as [|d coll IH]; intros Habs; simpl; [done|].
  rewrite (Habs d) by (by left).
  rewrite IH; [done|]. intros d' Hd'. apply Habs. by right.
Qed.

Lemma delete_one_absent user sess coll :
  (∀ d, d ∈ coll → same_key user sess d = false) →
  delete_one user sess coll = coll.
Proof.
  induction coll as [|d coll IH]; intros Habs; simpl; [done|].
  rewrite (Habs d) by (by left).
  rewrite IH; [done|]. intros d' Hd'. apply Habs. by right.
Qed.

Lemma distinct_keys_rest user sess d coll :
  distinct_keys (d :: coll) → same_key user sess d = true →
  ∀ d', d' ∈ coll → same_key user sess d' = false.
Proof.
  unfold distinct_keys. csimpl. intros [Hd _]%NoDup_cons Hkey%same_key_true.
  intros d' Hd'. destruct (same_key user sess d') eqn:Hkey'; [|done].
  apply same_key_true in Hkey'. destruct Hd. rewrite Hkey, <- Hkey'.
  apply list_elem_of_fmap. by exists d'.
Qed.

Lemma update_one_distinct user sess name coll :
  distinct_keys coll →
  update_one user sess name coll
  = (λ d, if same_key user sess d
          then mkSession (sess_user_id d) (sess_session_id d) name
          else d) <$> coll.
Proof.
  induction coll as [|d coll IH]; intros Hnd; csimpl; [done|].
  destruct (same_key user sess d) eqn:Hkey.
  - f_equal. symmetry. rewrite <- (list_fmap_id coll) at 2.
    apply list_fmap_ext. intros i d' Hd'.
    by rewrite (distinct_keys_rest user sess d coll Hnd Hkey d')
      by (by apply list_elem_of_lookup_2 in Hd').
  - f_equal. apply IH. unfold distinct_keys in *. csimpl in Hnd.
    by apply NoDup_cons in Hnd as [_ ?].
Qed.

Lemma delete_one_distinct user sess coll :
  distinct_keys coll →
  delete_one user sess coll
  = filter (λ d, same_key user sess d = false) coll.
Proof.
  induction coll as [|d coll IH]; intros Hnd; simpl; [done|].
  destruct (same_key user sess d) eqn:Hkey.
  - rewrite filter_cons_False by (by rewrite Hkey).
    symmetry. apply filter_all.
    apply (distinct_keys_rest user sess d coll Hnd Hkey).
  - rewrite filter_cons_True by done. f_equal. apply IH.
    unfold distinct_keys in *. csimpl in Hnd.
    by apply NoDup_cons in Hnd as [_ ?].
Qed.

Lemma find_user_update_one other user sess name coll :
  other ≠ user →
  find_user other (update_one user sess name coll) = find_user other coll.
Proof.
  intros Hne. induction coll as [|d coll IH]; simpl; [done|].
  destruct (same_key user sess d) eqn:Hkey.
  - apply same_key_true in Hkey as [= Hu _].
    rewrite !find_user_cons. simpl.
    by rewrite !bool_decide_eq_false_2 by congruence.
  - rewrite !find_user_cons, IH. done.
Qed.

Lemma find_user_delete_one other user sess coll :
  other ≠ user →
  find_user other (delete_one user sess coll) = find_user other coll.
Proof.
  intros Hne. induction coll as [|d coll IH]; simpl; [done|].
  destruct (same_key user sess d) eqn:Hkey.
  - apply same_key_true in Hkey as [= Hu _].
    rewrite find_user_cons. by rewrite bool_decide_eq_false_2 by congruence.
  - rewrite !find_user_cons, IH. done.
Qed.

Lemma update_one_first user sess name before d after :
  (∀ x, x ∈ before → same_key user sess x = false) →
  same_key user sess d = true →
  update_one user sess name (before ++ d :: after)
  = before ++ mkSession (sess_user_id d) (sess_session_id d) name :: after.
Proof.
  intros Hbefore Hd. induction before as [|x before IH]; simpl.
  - by rewrite Hd.
  - rewrite (Hbefore x) by (by left). f_equal. apply IH.
    intros y Hy. apply Hbefore. by right.
Qed.

Lemma delete_one_first user sess before d after :
  (∀ x, x ∈ before → same_key user sess x = false) →
  same_key user sess d = true →
  delete_one user sess (before ++ d :: after) = before ++ after.
Proof.
  intros Hbefore Hd. induction before as [|x before IH]; simpl.
  - by rewrite Hd.
  - rewrite (Hbefore x) by (by left). f_equal. apply IH.
    intros y Hy. apply Hbefore. by right.
Qed.

(** X14: [create_session] answers a request without user with an error and
    leaves the collection as it is; for a user it adds one session named
    "新会话" under the new id, which [list_session] then shows last among
    the user's sessions, the lists of the other users being unchanged. *)
Theorem create_session_listed (x_user : option string) (new_id : string)
    (coll : list Session) :
  (header_missing x_user = true →
   create_session x_user new_id coll = (coll, AnswerError (-1) "invalid user"))
  ∧ (∀ user, x_user = Some user → truthy user = true →
       create_session x_user new_id coll
       = (coll ++ [mkSession user new_id default_name],
          AnswerData 0 (mkSession user new_id default_name))
       ∧ list_session x_user (create_session x_user new_id coll).1
         = AnswerData 0
             (find_user user coll ++ [mkSession user new_id default_name])
       ∧ ∀ other, other ≠ user →
           find_user other (create_session x_user new_id coll).1
           = find_user other coll).
Proof.
  split.
  - intros Hmiss. unfold create_session. by rewrite Hmiss.
  - intros user -> Hu.
    assert (Hcreate : create_session (Some user) new_id coll
              = (coll ++ [mkSession user new_id default_name],
                 AnswerData 0 (mkSession user new_id default_name))).
    { unfold create_session. simpl. by rewrite Hu. }
    rewrite Hcreate. simpl. split; [done|]. split.
    + unfold list_session. simpl. rewrite Hu. simpl. f_equal.
      unfold find_user. rewrite filter_app. f_equal.
      by rewrite filter_cons_True, filter_nil.
    + intros other Hne. unfold find_user. rewrite filter_app.
      rewrite filter_cons_False by (simpl; congruence).
      by rewrite filter_nil, app_nil_r.
Qed.

(** X15: [update_session] adds and removes no session and changes no key:
    it renames, to "新会话" when the name is empty, the first session of the
    given user and id and no other one, also when later sessions have the
    same key (with distinct keys it is the only one); when there is none
    the collection is unchanged and the answer still reports the name as
    set. The sessions of the other users are unchanged. *)
Theorem update_session_renames (user sess name : string)
    (coll : list Session) :
  truthy user = true → truthy sess = true →
  let set := if negb (truthy name) then default_name else name in
  (update_session (Some user) (Some sess) name coll).2 = AnswerData 0 set
  ∧ (λ d, (sess_user_id d, sess_session_id d))
    <$> (update_session (Some user) (Some sess) name coll).1
    = (λ d, (sess_user_id d, sess_session_id d)) <$> coll
  ∧ (∀ before d after,
       coll = before ++ d :: after →
       (∀ x, x ∈ before → same_key user sess x = false) →
       same_key user sess d = true →
       (update_session (Some user) (Some sess) name coll).1
       = before ++ mkSession (sess_user_id d) (sess_session_id d) set
                   :: after)
  ∧ ((∀ d, d ∈ coll → same_key user sess d = false) →
     (update_session (Some user) (Some sess) name coll).1 = coll)
  ∧ (distinct_keys coll →
     (update_session (Some user) (Some sess) name coll).1
     = (λ d, if same_key user sess d
             then mkSession (sess_user_id d) (sess_session_id d) set
             else d) <$> coll)
  ∧ ∀ other, other ≠ user →
      find_user other (update_session (Some user) (Some sess) name coll).1
      = find_user other coll.
Proof.
  intros Hu Hs set. unfold update_session. simpl. rewrite Hu, Hs. simpl.
  fold set. split; [done|]. split; [apply update_one_keys|].
  split; [intros before d after ->; apply update_one_first|].
  split; [apply update_one_absent|]. split; [apply update_one_distinct|].
  intros other Hne. by apply find_user_update_one.
Qed.

(** X16: [delete_session] removes the first session of the given user and
    id and no other one, so that a later session with the same key stays
    (with distinct keys none is left); when there is none the collection is
    unchanged and the answer still reports the session id as deleted. The
    sessions of the other users are unchanged. *)
Theorem delete_session_removes (user sess : string) (coll : list Session) :
  truthy user = true → truthy sess = true →
  (delete_session (Some user) (Some sess) coll).2 = AnswerData 0 sess
  ∧ (∀ before d after,
       coll = before ++ d :: after →
       (∀ x, x ∈ before → same_key user sess x = false) →
       same_key user sess d = true →
       (delete_session (Some user) (Some sess) coll).1 = before ++ after)
  ∧ ((∀ d, d ∈ coll → same_key user sess d = false) →
     (delete_session (Some user) (Some sess) coll).1 = coll)
  ∧ (distinct_keys coll →
     (delete_session (Some user) (Some sess) coll).1
     = filter (λ d, same_key user sess d = false) coll
     ∧ ∀ d, d ∈ (delete_session (Some user) (Some sess) coll).1 →
         same_key user sess d = false)
  ∧ ∀ other, other ≠ user →
      find_user other (delete_session (Some user) (Some sess) coll).1
      = find_user other coll.
Proof.
  intros Hu Hs. unfold delete_session. simpl. rewrite Hu, Hs. simpl.
  split; [done|].
  split; [intros before d after ->; apply delete_one_first|].
  split; [apply delete_one_absent|]. split.
  - intros Hnd. rewrite delete_one_distinct by done. split; [done|].
    intros d Hd. by apply list_elem_of_filter in Hd as [? _].
  - intros other Hne. by apply find_user_delete_one.
Qed.

(** X17: deleting a session right after creating it gives back the
    collection as it was, when no session of the user had the new id. *)
Theorem create_then_delete (user new_id : string) (coll : list Session) :
  truthy user = true → truthy new_id = true →
  (∀ d, d ∈ coll → same_key user new_id d = false) →
  (delete_session (Some user) (Some new_id)
     (create_session (Some user) new_id coll).1).1
  = coll.
Proof.
  intros Hu Hs Habs. unfold create_session, delete_session. simpl.
  rewrite Hu, Hs. simpl. unfold insert_one.
  induction coll as [|d coll IH]; simpl.
  - unfold same_key. simpl. by rewrite !bool_decide_eq_true_2.
  - rewrite (Habs d) by (by left). f_equal. apply IH.
    intros d' Hd'. apply Habs. by right.
Qed.

(** ** The stand-ins meet the assumptions on ids *)

Lemma longest_ge (used : list string) (s : string) :
  s ∈ used → (String.length s ≤ String.length (Stub.longest used))%nat.
Proof.
  induction used as [|x used IH]; intros Hin.
  - by apply elem_of_nil in Hin.
  - simpl. apply elem_of_cons in Hin as [->|Hin]; case_bool_decide; try lia.
    all: specialize (IH Hin); lia.
Qed.

Lemma stub_uuid4_fresh (used : list string) : Stub.uuid4 used ∉ used.
Proof.
  intros Hin%longest_ge. unfold Stub.uuid4 in Hin. simpl in Hin. lia.
Qed.

Lemma stub_asks_id_fresh (call : ToolCall) (prompt : Prompt) (r : AIReply)
    (i : string) :
  Stub.asks call prompt = Returned r → reply_id r = Some i →
  Some i ∉ prompt.*1.
Proof.
  unfold Stub.asks. intros Hr Hi.
  destruct (last prompt) as [[? []]|]; injection Hr as <-; done.
Qed.

(** ** The properties on concrete runs *)

(** The end-to-end scenario of the spec: the user asks "what is 12 * 7?",
    the model requests [multiply], the tool answers "84", the model's final
    message is "84" and the turn ends after six steps. *)
Example end_to_end_scenario :
  ∃ final,
    (stub invoke 6 "u1-s1" (human_input "what is 12 * 7?") ∅).2 = Done final
    ∧ msg <$> messages final
      = [HumanMessage "what is 12 * 7?";
         AIMessage ""
           [mkToolCall "multiply" [("a", JInt 12); ("b", JInt 7)] "call_1"];
         ToolMessage "84" "call_1";
         AIMessage "84" []]
    ∧ current_user_id final = Some "u1"
    ∧ current_session_id final = Some "s1".
Proof. eexists. split; [vm_compute; reflexivity|]. by vm_compute. Qed.

(** The next turn of the thread prunes the tool round of the first. *)
Example second_turn_prunes :
  ∃ final,
    (stub invoke 3 "u1-s1" (human_input "thanks")
       (stub invoke 6 "u1-s1" (human_input "what is 12 * 7?") ∅).1).2
    = Killed
    ∧ get_latest
        (stub invoke 3 "u1-s1" (human_input "thanks")
           (stub invoke 6 "u1-s1" (human_input "what is 12 * 7?") ∅).1).1
        "u1-s1"
      = Some (mkCheckpoint final (Goto LlmCall))
    ∧ msg <$> messages final
      = [HumanMessage "what is 12 * 7?"; AIMessage "84" [];
         HumanMessage "thanks"].
Proof.
  eexists. split; [by vm_compute|]. split; [vm_compute; reflexivity|].
  by vm_compute.
Qed.

(** The reducer replaces in place a message whose id is already stored:
    an answer that reuses the id of the stored request takes its place and
    the tool result stays last. The ids of the model's answers are new in a
    thread whose message identity is unique. *)
Example reused_id_replaced :
  add_messages Stub.uuid4
    [mkStored "m1" (AIMessage "" [Stub.multiply_call]);
     mkStored "m2" (ToolMessage "84" "call_1")]
    [Add (Some "m1") (AIMessage "84" [])]
  = Ok [mkStored "m1" (AIMessage "84" []);
        mkStored "m2" (ToolMessage "84" "call_1")].
Proof. vm_compute. reflexivity. Qed.

(** Below the budget: the short state is left as it is. *)
Lemma compaction_below_threshold_witness :
  Stub.count_tokens_approximately (messages Stub.short_state) < 128000
  ∧ stub node_step "u1-s1" SummarizeConversation Stub.short_state
    = Ok Stub.short_state.
Proof.
  assert (Hlow : Stub.count_tokens_approximately (messages Stub.short_state)
                 < 128000) by (vm_compute; reflexivity).
  split; [exact Hlow|].
  exact (proj1 (proj2
    (stub compaction_below_threshold "u1-s1" Stub.short_state Hlow))).
Defined.

(** Over the budget: the long state keeps its last two messages. *)
Lemma compaction_above_threshold_witness :
  128000 ≤ Stub.count_tokens_approximately (messages Stub.long_state)
  ∧ NoDup (ids (messages Stub.long_state))
  ∧ ∃ state',
      stub node_step "u1-s1" SummarizeConversation Stub.long_state = Ok state'
      ∧ messages state' = last_two (messages Stub.long_state)
      ∧ current_summary state' = Some "summary of the conversation".
Proof.
  assert (Hhigh : 128000
                  ≤ Stub.count_tokens_approximately (messages Stub.long_state)).
  { apply Z.leb_le. vm_compute. reflexivity. }
  assert (Hnd : NoDup (ids (messages Stub.long_state))).
  { apply (bool_decide_unpack _). vm_compute. exact I. }
  split; [exact Hhigh|]. split; [exact Hnd|].
  destruct (stub compaction_above_threshold "u1-s1" Stub.long_state
              (mkAIReply None "summary of the conversation" [])
              Hhigh eq_refl Hnd)
    as (_ & _ & state' & Hstep & Hmsgs & _ & Hsum & _).
  exists state'. split; [exact Hstep|]. split; [exact Hmsgs|exact Hsum].
Defined.

(** C4, as stated, fails: over the budget, a thread's only message is the
    only one left after the compaction (one message, not two), and a model
    that answers with empty content leaves an empty summary. *)
Lemma compaction_claim_counterexample :
  128000 ≤ Stub.count_tokens_approximately (messages Stub.huge_state)
  ∧ ∃ state',
      node_step Stub.uuid4 Stub.count_tokens_approximately Stub.SystemPrompt
        Stub.qwen3_8b_silent Stub.qwen3_8b_with_tools Stub.tool_ainvoke
        "u1-s1" SummarizeConversation Stub.huge_state = Ok state'
      ∧ length (messages state') = 1%nat
      ∧ current_summary state' = Some "".
Proof.
  assert (Hhigh : 128000
                  ≤ Stub.count_tokens_approximately (messages Stub.huge_state)).
  { apply Z.leb_le. vm_compute. reflexivity. }
  split; [exact Hhigh|].
  eexists. split.
  - refine (proj2
      (summarize_above Stub.uuid4 Stub.count_tokens_approximately
         Stub.SystemPrompt Stub.qwen3_8b_silent Stub.qwen3_8b_with_tools
         Stub.tool_ainvoke "u1-s1" Stub.huge_state (mkAIReply None "" [])
         Hhigh eq_refl) _).
    apply NoDup_singleton.
  - split; reflexivity.
Qed.

(** The router on a request for [multiply] and on a final answer. *)
Lemma should_continue_decision_witness :
  should_continue (Stub.asking_state Stub.multiply_call)
  = Ok (Goto ToolNode)
  ∧ should_continue
      (mkAgentState [mkStored "m1" (AIMessage "84" [])] None None None None)
    = Ok END.
Proof.
  split.
  - refine (proj1 (proj2 should_continue_decision
                     (Stub.asking_state Stub.multiply_call)
                     "m2" "" _ eq_refl) _).
    discriminate.
  - exact (proj2 (proj2 should_continue_decision
                    (mkAgentState [mkStored "m1" (AIMessage "84" [])]
                       None None None None)
                    "m1" "84" [] eq_refl) eq_refl).
Defined.

(** The tool round of the scenario: one result, [84], for [call_1]. *)
Lemma tool_results_join_witness :
  last_tool_calls
    (Stub.asking_state Stub.multiply_call)
  = Ok [Stub.multiply_call]
  ∧ ∃ appended,
      stub node_step "u1-s1" ToolNode (Stub.asking_state Stub.multiply_call)
      = Ok (mkAgentState
              (messages (Stub.asking_state Stub.multiply_call) ++ appended)
              (Some "u1") (Some "用户u1") (Some "s1") (Some ""))
      ∧ msg <$> appended = [ToolMessage "84" "call_1"].
Proof.
  split; [reflexivity|].
  destruct (proj1 (stub tool_results_join stub_uuid4_fresh "u1-s1"
              (Stub.asking_state Stub.multiply_call) [Stub.multiply_call]
              eq_refl))
    as (appended & Hstep & Hmsg & _).
  - intros c Hc. apply list_elem_of_singleton in Hc. subst c. split.
    + apply (bool_decide_unpack _). vm_compute. exact I.
    + exists "84". vm_compute. reflexivity.
  - exists appended. split; [exact Hstep|exact Hmsg].
Defined.

(** C2, as stated, fails: a request for a tool that the registry does not
    hold, and a request whose tool raises ([divide] by zero), make the
    invoke-tool step raise, and the turn of a model that asks for an unknown
    tool stops with the exception, no tool-result message having been
    appended. *)
Lemma tool_claim_counterexample :
  stub node_step "u1-s1" ToolNode (Stub.asking_state Stub.weather_call)
  = Raise (KeyError "weather")
  ∧ stub node_step "u1-s1" ToolNode (Stub.asking_state Stub.divide_call)
    = Raise (ToolException "Division by zero is not allowed.")
  ∧ ∃ store cp,
      invoke Stub.uuid4 Stub.count_tokens_approximately Stub.SystemPrompt
        Stub.qwen3_8b (Stub.asks Stub.weather_call)
        Stub.tool_ainvoke 6 "u1-s1" (human_input "will it rain?") ∅
      = (store, Crashed (KeyError "weather"))
      ∧ get_latest store "u1-s1" = Some cp
      ∧ msg <$> messages (values cp)
        = [HumanMessage "will it rain?";
           AIMessage "" [Stub.weather_call]].
Proof.
  split; [vm_compute; reflexivity|]. split; [vm_compute; reflexivity|].
  eexists _, _. split; [vm_compute; reflexivity|].
  split; [vm_compute; reflexivity|]. vm_compute. reflexivity.
Qed.

(** The generate step of the scenario, followed by the router. *)
Lemma route_and_tools_read_assistant_message_witness :
  ∃ i state',
    stub node_step "u1-s1" LlmCall Stub.short_state = Ok state'
    ∧ messages state'
      = messages Stub.short_state
        ++ [mkStored i (AIMessage "" [Stub.multiply_call])]
    ∧ should_continue state' = Ok (Goto ToolNode).
Proof.
  destruct (proj1 (stub route_and_tools_read_assistant_message
                     stub_uuid4_fresh (stub_asks_id_fresh _) "u1-s1")
              Stub.short_state
              (mkAIReply None "" [Stub.multiply_call]) eq_refl)
    as (i & state' & Hstep & Hmsgs & Hroute & _).
  exists i, state'. split; [exact Hstep|]. split; [exact Hmsgs|exact Hroute].
Defined.

(** The third checkpoint of a turn on a history over the budget, in a
    thread that brought the summary of an earlier turn: the compaction is
    triggered, and the summarization model, which answers with the
    instruction it is sent, is sent the create-fresh one. *)
Lemma compaction_creates_fresh_summary_witness :
  reachable Stub.uuid4 Stub.count_tokens_approximately Stub.SystemPrompt
    Stub.qwen3_8b_echo Stub.qwen3_8b_with_tools Stub.tool_ainvoke "u1-s1" 2
    (mkCheckpoint Stub.long_state (Goto SummarizeConversation))
  ∧ 128000 ≤ Stub.count_tokens_approximately (messages Stub.long_state)
  ∧ summarize_conversation_node Stub.count_tokens_approximately
      Stub.qwen3_8b_echo Stub.long_state
    = Ok (mkUpdate (Some [RemoveMessage "m1"]) None None None
            (Some create_instruction)).
Proof.
  assert (Hreach :
    reachable Stub.uuid4 Stub.count_tokens_approximately Stub.SystemPrompt
      Stub.qwen3_8b_echo Stub.qwen3_8b_with_tools Stub.tool_ainvoke "u1-s1" 2
      (mkCheckpoint Stub.long_state (Goto SummarizeConversation))).
  { refine (reachable_step _ _ _ _ _ _ "u1-s1" 1
              (mkCheckpoint Stub.long_state (Goto DeleteToolMessage))
              DeleteToolMessage _ _ eq_refl _).
    - refine (reachable_step _ _ _ _ _ _ "u1-s1" 0
                (mkCheckpoint Stub.long_state_with_summary (Goto RuntimeLoad))
                RuntimeLoad _ (reachable_start _ _ _ _ _ _ "u1-s1" _)
                eq_refl _).
      exact (load_superstep _ _ _ _ _ _ "u1-s1" Stub.long_state_with_summary
               "u1" "s1" [] eq_refl).
    - apply prune_superstep_clean. intros m Hm.
      repeat apply elem_of_cons in Hm as [->|Hm]; try reflexivity.
      by apply elem_of_nil in Hm. }
  assert (Hhigh : 128000
            ≤ Stub.count_tokens_approximately (messages Stub.long_state)).
  { apply Z.leb_le. vm_compute. reflexivity. }
  split; [exact Hreach|]. split; [exact Hhigh|].
  destruct (proj1
    (compaction_creates_fresh_summary Stub.uuid4
       Stub.count_tokens_approximately Stub.SystemPrompt Stub.qwen3_8b_echo
       Stub.qwen3_8b_with_tools Stub.tool_ainvoke "u1-s1" 2%nat _ Hreach)
    eq_refl) as (_ & _ & _ & Hnode).
  rewrite bool_decide_eq_false_2 in Hnode by (simpl values; lia).
  exact Hnode.
Defined.

(** An empty user header: no turn is started. *)
Lemma chat_rejects_empty_witness :
  header_missing (Some "") = true
  ∧ stub stream_chat 6 (Some "") (Some "s1") "hi" ∅ = (∅, None).
Proof.
  split; [reflexivity|].
  exact (proj2 (stub chat_rejects_empty 6%nat (Some "") (Some "s1") "hi" ∅
                  (or_introl eq_refl))).
Defined.

(** C8, as stated, fails: the thread identifier of user "u1" and session
    "a-b" has three components, yet [chat] starts the turn, and its first
    step takes "a" for the session. *)
Lemma malformed_thread_id_counterexample :
  parses_to_two_components "u1-a-b" = false
  ∧ chat (Some "u1") (Some "a-b") "hi"
    = EventSourceResponse "u1-a-b" (human_input "hi")
  ∧ ∃ store state,
      stub stream_chat 1 (Some "u1") (Some "a-b") "hi" ∅
      = (store, Some Killed)
      ∧ get_latest store "u1-a-b"
        = Some (mkCheckpoint state (Goto DeleteToolMessage))
      ∧ current_user_id state = Some "u1"
      ∧ current_session_id state = Some "a".
Proof.
  split; [reflexivity|]. split; [reflexivity|].
  eexists _, _. split; [vm_compute; reflexivity|].
  split; [vm_compute; reflexivity|]. split; reflexivity.
Qed.

(** C1, as stated, fails: with one fixed model that asks for [now_utc],
    the engine killed after the generate step and restarted five seconds
    later ends the turn with a tool result and an answer that differ from
    those of the uninterrupted turn, the tool reading the clock at the time
    of its call; and a restarted engine whose id generator gives other ids
    ends with other message ids. *)
Lemma resume_claim_counterexample :
  (∃ uninterrupted resumed,
     (invoke Stub.uuid4 Stub.count_tokens_approximately Stub.SystemPrompt
        Stub.qwen3_8b (Stub.asks Stub.now_utc_call)
        (Stub.tool_ainvoke_at "2026-01-01T10:00:00+00:00")
        6 "u1-s1" (human_input "what time is it?") ∅).2
     = Done uninterrupted
     ∧ (resume Stub.uuid4 Stub.count_tokens_approximately Stub.SystemPrompt
          Stub.qwen3_8b (Stub.asks Stub.now_utc_call)
          (Stub.tool_ainvoke_at "2026-01-01T10:00:05+00:00")
          2 "u1-s1"
          (invoke Stub.uuid4 Stub.count_tokens_approximately
             Stub.SystemPrompt Stub.qwen3_8b (Stub.asks Stub.now_utc_call)
             (Stub.tool_ainvoke_at "2026-01-01T10:00:00+00:00")
             4 "u1-s1" (human_input "what time is it?") ∅).1).2
       = Done resumed
     ∧ msg <$> messages uninterrupted
       = [HumanMessage "what time is it?";
          AIMessage "" [Stub.now_utc_call];
          ToolMessage "2026-01-01T10:00:00+00:00" "call_1";
          AIMessage "2026-01-01T10:00:00+00:00" []]
     ∧ msg <$> messages resumed
       = [HumanMessage "what time is it?";
          AIMessage "" [Stub.now_utc_call];
          ToolMessage "2026-01-01T10:00:05+00:00" "call_1";
          AIMessage "2026-01-01T10:00:05+00:00" []]
     ∧ uninterrupted ≠ resumed)
  ∧ ∃ uninterrupted resumed,
      (stub invoke 6 "u1-s1" (human_input "what is 12 * 7?") ∅).2
      = Done uninterrupted
      ∧ (resume Stub.uuid4_other Stub.count_tokens_approximately
           Stub.SystemPrompt Stub.qwen3_8b Stub.qwen3_8b_with_tools
           Stub.tool_ainvoke 2 "u1-s1"
           (stub invoke 4 "u1-s1" (human_input "what is 12 * 7?") ∅).1).2
        = Done resumed
      ∧ ids (messages uninterrupted) = ["u"; "uu"; "uuu"; "uuuu"]
      ∧ ids (messages resumed) = ["u"; "uu"; "vuu"; "vvuu"]
      ∧ uninterrupted ≠ resumed.
Proof.
  split.
  - eexists _, _. split; [vm_compute; reflexivity|].
    split; [vm_compute; reflexivity|].
    split; [vm_compute; reflexivity|]. split; [vm_compute; reflexivity|].
    intros Heq. by vm_compute in Heq.
  - eexists _, _. split; [vm_compute; reflexivity|].
    split; [vm_compute; reflexivity|].
    split; [vm_compute; reflexivity|]. split; [vm_compute; reflexivity|].
    intros Heq. by vm_compute in Heq.
Qed.

(** The kill-and-restart of C1 on the scenario: killed after three steps
    and restarted, the turn ends as the one that ran its six steps. *)
Example resume_scenario :
  stub resume 3 "u1-s1"
    (stub invoke 3 "u1-s1" (human_input "what is 12 * 7?") ∅).1
  = stub invoke 6 "u1-s1" (human_input "what is 12 * 7?") ∅.
Proof. vm_compute. reflexivity. Qed.

(** ** The further properties on concrete inputs *)

(** A thread identifier without '-' and one with. *)
Lemma load_identity_needs_delimiter_witness :
  runtime_load_node "u1" empty_state = Raise IndexError
  ∧ ∃ upd, runtime_load_node "u1-s1" empty_state = Ok upd.
Proof.
  split.
  - exact (proj1 (load_identity_needs_delimiter "u1" empty_state) eq_refl).
  - exact (proj1 (proj2 (load_identity_needs_delimiter "u1-s1" empty_state))
             eq_refl).
Defined.

(** The identifier "u1-a-b-c": user "u1", session "a". *)
Lemma load_identity_update_witness :
  ∃ user sess rest,
    split delimiter "u1-a-b-c" = user :: sess :: rest
    ∧ mkUpdate None (Some "u1") (Some "用户u1") (Some "a") (Some "")
      = mkUpdate None (Some user) (Some ("用户" +:+ user)) (Some sess)
                 (Some "")
    ∧ contains delimiter user = false ∧ contains delimiter sess = false
    ∧ apply_update Stub.uuid4 Stub.short_state
        (mkUpdate None (Some "u1") (Some "用户u1") (Some "a") (Some ""))
      = Ok (mkAgentState (messages Stub.short_state) (Some user)
              (Some ("用户" +:+ user)) (Some sess) (Some "")).
Proof.
  exact (load_identity_update Stub.uuid4 "u1-a-b-c" Stub.short_state
           (mkUpdate None (Some "u1") (Some "用户u1") (Some "a") (Some ""))
           eq_refl).
Defined.

(** A session id in the format of [uuid4]: only its first group is loaded. *)
Lemma session_id_truncated_witness :
  contains delimiter "u1" = false
  ∧ ∃ upd loaded,
      runtime_load_node
        (thread_id_of "u1" "123e4567-e89b-42d3-a456-426614174000")
        empty_state = Ok upd
      ∧ upd_user_id upd = Some "u1"
      ∧ upd_session_id upd = Some loaded
      ∧ head (split delimiter "123e4567-e89b-42d3-a456-426614174000")
        = Some loaded
      ∧ (loaded = "123e4567-e89b-42d3-a456-426614174000"
         ↔ contains delimiter "123e4567-e89b-42d3-a456-426614174000" = false).
Proof.
  split; [reflexivity|].
  exact (session_id_truncated "u1" "123e4567-e89b-42d3-a456-426614174000"
           empty_state eq_refl).
Defined.

(** The pairs ("a-b", "c") and ("a", "b-c"). *)
Lemma thread_id_shared_witness :
  chat (Some (thread_id_of "a" "b")) (Some "c") "hi"
  = chat (Some "a") (Some (thread_id_of "b" "c")) "hi".
Proof.
  exact (proj1 (proj2 (proj2 (thread_id_shared "a" "b" "c")) eq_refl eq_refl)
           "hi").
Defined.

Lemma chat_accepts_iff_witness :
  chat (Some "u1") (Some "s1") "hi"
  = EventSourceResponse "u1-s1" (human_input "hi").
Proof.
  apply (proj2 (chat_accepts_iff (Some "u1") (Some "s1") "hi" "u1-s1"
                  (human_input "hi"))).
  exists "u1", "s1". repeat split.
Defined.

(** The state after the tool round of the scenario, on thread "u1-s1". *)
Lemma prune_keeps_the_rest_witness :
  NoDup (ids (messages (Stub.asking_state Stub.multiply_call)))
  ∧ ∃ state',
      stub node_step "u1-s1" DeleteToolMessage
        (Stub.asking_state Stub.multiply_call) = Ok state'
      ∧ messages state'
        = filter (λ m, is_tool_artifact (msg m) = false)
            (messages (Stub.asking_state Stub.multiply_call)).
Proof.
  assert (Hnd : NoDup (ids (messages (Stub.asking_state Stub.multiply_call)))).
  { apply (bool_decide_unpack _). vm_compute. exact I. }
  split; [exact Hnd|].
  destruct (stub prune_keeps_the_rest "u1-s1"
              (Stub.asking_state Stub.multiply_call))
    as (state' & Hstep & _ & _ & _ & _ & _ & Hrest).
  exists state'. split; [exact Hstep|exact (Hrest Hnd)].
Defined.

(** The thread whose only message is over the budget. *)
Lemma compaction_keeps_short_history_witness :
  128000 ≤ Stub.count_tokens_approximately (messages Stub.huge_state)
  ∧ (length (messages Stub.huge_state) ≤ 2)%nat
  ∧ ∃ state',
      stub node_step "u1-s1" SummarizeConversation Stub.huge_state
      = Ok state'
      ∧ messages state' = messages Stub.huge_state
      ∧ current_summary state' = Some "summary of the conversation"
      ∧ 128000 ≤ Stub.count_tokens_approximately (messages state').
Proof.
  assert (Hhigh : 128000
            ≤ Stub.count_tokens_approximately (messages Stub.huge_state)).
  { apply Z.leb_le. vm_compute. reflexivity. }
  assert (Hshort : (length (messages Stub.huge_state) ≤ 2)%nat).
  { simpl. lia. }
  split; [exact Hhigh|]. split; [exact Hshort|].
  exact (stub compaction_keeps_short_history "u1-s1" Stub.huge_state
           (mkAIReply None "summary of the conversation" [])
           Hhigh eq_refl Hshort).
Defined.

(** A request for [multiply] followed by one for an unknown tool. *)
Lemma tool_node_first_failure_witness :
  stub node_step "u1-s1" ToolNode
    (mkAgentState
       [mkStored "m1"
          (AIMessage ""
             [Stub.multiply_call; Stub.weather_call; Stub.divide_call])]
       None None None None)
  = Raise (KeyError "weather").
Proof.
  refine (proj1 (proj2
    (stub tool_node_first_failure "u1-s1"
       (mkAgentState
          [mkStored "m1"
             (AIMessage ""
                [Stub.multiply_call; Stub.weather_call; Stub.divide_call])]
          None None None None)
       [Stub.multiply_call] Stub.weather_call [Stub.divide_call]
       (KeyError "weather") eq_refl _ _))).
  - intros c Hc. apply list_elem_of_singleton in Hc. subst c. split.
    + apply (bool_decide_unpack _). vm_compute. exact I.
    + exists "84". vm_compute. reflexivity.
  - vm_compute. reflexivity.
Defined.

(** The router on an empty history and on a history ending with the user. *)
Lemma last_message_faults_witness :
  should_continue empty_state = Raise IndexError
  ∧ should_continue Stub.short_state = Raise AttributeError.
Proof.
  split.
  - exact (proj1 (proj1 (last_message_faults Stub.tool_ainvoke empty_state)
                    eq_refl)).
  - exact (proj1 (proj1 (proj2
             (last_message_faults Stub.tool_ainvoke Stub.short_state))
             (mkStored "m1" (HumanMessage "hi")) eq_refl eq_refl)).
Defined.

(** The checkpoint of the scenario after its first generate step. *)
Lemma scenario_after_four_steps :
  stub reachable "u1-s1" 4
    (mkCheckpoint
       (mkAgentState
          [mkStored "m1" (HumanMessage "hi");
           mkStored "um1" (AIMessage "" [Stub.multiply_call])]
          (Some "u1") (Some "用户u1") (Some "s1") (Some ""))
       (Goto ToolNode)).
Proof.
  eapply reachable_step;
    [eapply reachable_step;
       [eapply reachable_step;
          [eapply reachable_step;
             [apply (reachable_start _ _ _ _ _ _ _
                       (mkAgentState [mkStored "m1" (HumanMessage "hi")]
                          None None None None))
             |reflexivity|vm_compute; reflexivity]
          |reflexivity|vm_compute; reflexivity]
       |reflexivity|vm_compute; reflexivity]
    |reflexivity|vm_compute; reflexivity].
Qed.

Lemma turn_alternates_witness :
  stub reachable "u1-s1" 4
    (mkCheckpoint
       (mkAgentState
          [mkStored "m1" (HumanMessage "hi");
           mkStored "um1" (AIMessage "" [Stub.multiply_call])]
          (Some "u1") (Some "用户u1") (Some "s1") (Some ""))
       (Goto ToolNode))
  ∧ (4 ≤ 4)%nat ∧ Nat.even 4 = true.
Proof.
  split; [exact scenario_after_four_steps|].
  exact (proj2 (proj2 (proj2
    (stub turn_alternates "u1-s1" 4%nat _ scenario_after_four_steps)))
    eq_refl).
Defined.

(** The turn of the scenario, from an empty store. *)
Lemma turn_ends_with_final_answer_witness :
  ∃ final,
    stub invoke 6 "u1-s1" (human_input "what is 12 * 7?") ∅
    = ((stub invoke 6 "u1-s1" (human_input "what is 12 * 7?") ∅).1,
       Done final)
    ∧ ∃ i content,
        last (messages final) = Some (mkStored i (AIMessage content [])).
Proof.
  eexists. split; [vm_compute; reflexivity|].
  refine (proj1 (proj2
    (stub turn_ends_with_final_answer 6%nat "u1-s1"
       (human_input "what is 12 * 7?") ∅ _ _ _))).
  vm_compute. reflexivity.
Defined.

Lemma history_after_turn_witness :
  ∃ content,
    list_history_message (Some "u1") (Some "s1")
      (stub stream_chat 6 (Some "u1") (Some "s1") "what is 12 * 7?" ∅).1
    = HistoryMessages
        [("human", "what is 12 * 7?"); ("ai", ""); ("tool", "84");
         ("ai", content)].
Proof.
  exists "84".
  refine (eq_trans (proj1
    (stub history_after_turn 6%nat (Some "u1") (Some "s1")
       "what is 12 * 7?" ∅ _
       (mkAgentState
          [mkStored "u" (HumanMessage "what is 12 * 7?");
           mkStored "uu" (AIMessage "" [Stub.multiply_call]);
           mkStored "uuu" (ToolMessage "84" "call_1");
           mkStored "uuuu" (AIMessage "84" [])]
          (Some "u1") (Some "用户u1") (Some "s1") (Some ""))
       _)) _).
  - vm_compute. reflexivity.
  - reflexivity.
Defined.

(** A thread identifier without '-': the first step raises [IndexError]. *)
Lemma turn_errors_witness :
  step_failure "u1" RuntimeLoad IndexError.
Proof.
  exact (proj1
    (stub turn_errors stub_uuid4_fresh (stub_asks_id_fresh _) "u1" 0%nat
       (mkCheckpoint empty_state (Goto RuntimeLoad)) RuntimeLoad IndexError
       (stub reachable_start "u1" empty_state) eq_refl eq_refl)).
Defined.

(** A collection with two sessions of "u1" and one of "u2". *)
Lemma create_session_listed_witness :
  list_session (Some "u1")
    (create_session (Some "u1") "s3"
       [mkSession "u1" "s1" "first"; mkSession "u2" "s2" "other"]).1
  = AnswerData 0
      [mkSession "u1" "s1" "first"; mkSession "u1" "s3" default_name].
Proof.
  exact (proj1 (proj2 (proj2
    (create_session_listed (Some "u1") "s3"
       [mkSession "u1" "s1" "first"; mkSession "u2" "s2" "other"])
    "u1" eq_refl eq_refl))).
Defined.

(** Renaming "s1" of "u1" among the sessions with the repeated key, with
    an empty name: the first of the two gets the default name. *)
Lemma update_session_renames_witness :
  update_session (Some "u1") (Some "s1") "" Stub.repeated_sessions
  = ([mkSession "u2" "s2" "other"; mkSession "u1" "s1" default_name;
      mkSession "u1" "s1" "second"],
     AnswerData 0 default_name).
Proof.
  pose proof (update_session_renames "u1" "s1" "" Stub.repeated_sessions
                eq_refl eq_refl) as (Hanswer & _ & Hfirst & _).
  rewrite (surjective_pairing (update_session _ _ _ _)).
  rewrite Hanswer.
  rewrite (Hfirst [mkSession "u2" "s2" "other"] (mkSession "u1" "s1" "first")
             [mkSession "u1" "s1" "second"] eq_refl); [reflexivity| |].
  - intros x Hx. apply list_elem_of_singleton in Hx. by subst x.
  - reflexivity.
Defined.

(** Deleting "s1" of "u1" among the sessions with the repeated key: the
    first of the two goes, the second stays. *)
Lemma delete_session_removes_witness :
  delete_session (Some "u1") (Some "s1") Stub.repeated_sessions
  = ([mkSession "u2" "s2" "other"; mkSession "u1" "s1" "second"],
     AnswerData 0 "s1").
Proof.
  pose proof (delete_session_removes "u1" "s1" Stub.repeated_sessions
                eq_refl eq_refl) as (Hanswer & Hfirst & _).
  rewrite (surjective_pairing (delete_session _ _ _)).
  rewrite Hanswer.
  rewrite (Hfirst [mkSession "u2" "s2" "other"] (mkSession "u1" "s1" "first")
             [mkSession "u1" "s1" "second"] eq_refl); [reflexivity| |].
  - intros x Hx. apply list_elem_of_singleton in Hx. by subst x.
  - reflexivity.
Defined.

Lemma create_then_delete_witness :
  (delete_session (Some "u1") (Some "s3")
     (create_session (Some "u1") "s3"
        [mkSession "u1" "s1" "first"; mkSession "u2" "s2" "other"]).1).1
  = [mkSession "u1" "s1" "first"; mkSession "u2" "s2" "other"].
Proof.
  apply (create_then_delete "u1" "s3"
           [mkSession "u1" "s1" "first"; mkSession "u2" "s2" "other"]
           eq_refl eq_refl).
  intros d Hd. repeat apply elem_of_cons in Hd as [->|Hd]; try reflexivity.
  by apply elem_of_nil in Hd.
Defined.
